(** * A shallow embedding of the DHCP responder [dhcp_app.py]

    The development follows the program top-down: byte strings and the
    [struct] codec, the option TLV codec ([parse_options], [build_options]),
    the text forms of IPv4 addresses used by [socket] and [ipaddress], the
    lease pool ([LeaseManager]), the packet builder ([build_reply]) and one
    iteration of the receive loop of [main].  Definitions come first, the
    verification of the specification follows. *)

From Stdlib Require Import ZArith Lia.
From Stdlib Require Import Strings.Byte Strings.Ascii Strings.String.
From stdpp Require Import gmap strings list fin_maps.

Open Scope Z_scope.

(** ** Python values *)

(** A Python [bytes] object is a list of bytes. *)
Abbreviation bytes := (list byte).

#[global] Instance byte_eq_dec : EqDecision byte := Byte.byte_eq_dec.

(** [b] as the [int] that indexing a [bytes] object yields. *)
Definition byte_to_Z (b : byte) : Z := Z.of_N (Byte.to_N b).

(** The byte of value [z mod 256]. *)
Definition byte_of_Z (z : Z) : byte :=
  default x00 (Byte.of_N (Z.to_N (z mod 256))).

(** The exceptions the program can raise. *)
Inductive exn :=
  struct_error | OSError | TypeError | ValueError | OverflowError.

(** The outcome of a call that may raise. *)
Inductive result (A : Type) :=
| Ok (a : A)
| Raise (e : exn).
Arguments Ok {A} a.
Arguments Raise {A} e.

Definition rbind {A B} (r : result A) (f : A -> result B) : result B :=
  match r with
  | Ok a => f a
  | Raise e => Raise e
  end.

Notation "'try!' x := r 'in' k" := (rbind r (fun x => k))
  (at level 10, x name, r at level 100, k at level 200, only parsing).

(** ** The [struct] codec *)

(** [struct.pack("B", z)]: [struct.error] unless [0 <= z <= 255]. *)
Definition pack_B (z : Z) : result bytes :=
  if decide (0 <= z <= 255) then Ok [byte_of_Z z] else Raise struct_error.

(** [int.from_bytes(bs, "big")], on top of the value [acc] of the bytes
    already read. *)
Fixpoint int_from_bytes (acc : Z) (bs : bytes) : Z :=
  match bs with
  | [] => acc
  | b :: bs => int_from_bytes (acc * 256 + byte_to_Z b) bs
  end.

(** The low [n] bytes of [z], most significant first. *)
Fixpoint int_to_bytes (n : nat) (z : Z) : bytes :=
  match n with
  | O => []
  | S n => int_to_bytes n (z / 256) ++ [byte_of_Z z]
  end.

(** [struct.pack("!H", z)] and [struct.pack("!I", z)]: [struct.error] when
    [z] does not fit the field. *)
Definition pack_H (z : Z) : result bytes :=
  if decide (0 <= z < 2 ^ 16) then Ok (int_to_bytes 2 z) else Raise struct_error.

Definition pack_I (z : Z) : result bytes :=
  if decide (0 <= z < 2 ^ 32) then Ok (int_to_bytes 4 z) else Raise struct_error.

(** [struct.pack("<n>s", bs)]: [bs] cut or zero-padded to [n] bytes. *)
Definition pack_s (n : nat) (bs : bytes) : bytes :=
  take n bs ++ replicate (n - length bs)%nat x00.

(** The slice [bs[i:j]]. *)
Definition slice (i j : nat) (bs : bytes) : bytes := take (j - i)%nat (drop i bs).

(** ** Constants *)

Definition BOOTREQUEST : Z := 1.
Definition BOOTREPLY : Z := 2.

Definition DHCPDISCOVER : Z := 1.
Definition DHCPREQUEST : Z := 3.
Definition DHCPDECLINE : Z := 4.
Definition DHCPRELEASE : Z := 7.

Definition MAGIC_COOKIE : bytes := [x63; x82; x53; x63].

(** ** The option codec *)

(** The [while] loop of [parse_options].  Every iteration moves [idx]
    forward, so [length raw] iterations always suffice ([fuel]). *)
Fixpoint parse_loop (fuel : nat) (raw : bytes) (idx : nat)
    (options : gmap Z bytes) : gmap Z bytes :=
  match fuel with
  | O => options
  | S fuel =>
      match raw !! idx with
      | None => options                          (* idx >= len(raw) *)
      | Some code =>
          let idx := S idx in
          if decide (byte_to_Z code = 255) then options
          else if decide (byte_to_Z code = 0) then parse_loop fuel raw idx options
          else
            match raw !! idx with
            | None => options                    (* if idx >= len(raw): break *)
            | Some length =>
                let length := Z.to_nat (byte_to_Z length) in
                let idx := S idx in
                let value := slice idx (idx + length) raw in
                let idx := (idx + length)%nat in
                parse_loop fuel raw idx (<[byte_to_Z code := value]> options)
            end
      end
  end.

Definition parse_options (raw : bytes) : gmap Z bytes :=
  parse_loop (length raw) raw 0 ∅.

(** The [for] loop of [build_options] on the entries still to visit; a
    value [None] is Python's [None]. *)
Fixpoint build_parts (options : list (Z * option bytes)) : result (list bytes) :=
  match options with
  | [] => Ok [[xff]]
  | (code, None) :: options => build_parts options
  | (code, Some value) :: options =>
      try! c := pack_B code in
      try! l := pack_B (Z.of_nat (length value)) in
      try! parts := build_parts options in
      Ok ((c ++ l ++ value) :: parts)
  end.

Definition build_options (options : list (Z * option bytes)) : result bytes :=
  try! parts := build_parts options in
  Ok (concat parts).

(** [parse_loop] from [idx] with the fuel [parse_options] would have left
    there. *)
Definition parse_from (raw : bytes) (idx : nat) (options : gmap Z bytes)
    : gmap Z bytes :=
  parse_loop (length raw - idx) raw idx options.

(** The TLV bytes of an option list, without the terminator. *)
Fixpoint encode (options : list (Z * option bytes)) : bytes :=
  match options with
  | [] => []
  | (code, None) :: options => encode options
  | (code, Some value) :: options =>
      byte_of_Z code :: byte_of_Z (Z.of_nat (length value)) :: value
      ++ encode options
  end.

(** The mapping an ordered option list stands for, on top of [acc]: an
    entry without a value is skipped and a later entry replaces an earlier
    one of the same code. *)
Definition add_entries (acc : gmap Z bytes) (options : list (Z * option bytes))
    : gmap Z bytes :=
  fold_left
    (fun acc '(code, value) =>
       match value with
       | Some value => <[code := value]> acc
       | None => acc
       end)
    options acc.

Definition option_entries (options : list (Z * option bytes)) : gmap Z bytes :=
  add_entries ∅ options.

(** The option lists whose entries fit a TLV: a code that is neither
    padding (0) nor the terminator (255) and a value whose length fits the
    length byte. *)
Definition encodable (options : list (Z * option bytes)) : Prop :=
  Forall
    (fun '(code, value) =>
       match value with
       | Some value => 1 <= code <= 254 /\ (length value <= 255)%nat
       | None => True
       end)
    options.

(** An entry [struct.pack("BB", code, len(value))] accepts: both numbers
    fit a byte. *)
Definition fits_BB (option : Z * option bytes) : Prop :=
  match option.2 with
  | Some value => 0 <= option.1 <= 255 /\ (length value <= 255)%nat
  | None => True
  end.

#[global] Instance fits_BB_dec (option : Z * option bytes) : Decision (fits_BB option).
Proof. unfold fits_BB. destruct option.2; apply _. Defined.

(** ** Text forms of addresses *)

Definition digit_char (d : Z) : ascii := ascii_of_nat (Z.to_nat (48 + d)).

(** [str(b)] for an [int] [b] taken from a [bytes] object: decimal, no
    leading zero. *)
Definition str_byte (b : byte) : string :=
  let n := byte_to_Z b in
  if decide (n < 10) then String (digit_char n) EmptyString
  else if decide (n < 100) then
    String (digit_char (n / 10)) (String (digit_char (n mod 10)) EmptyString)
  else
    String (digit_char (n / 100))
      (String (digit_char (n / 10 mod 10)) (String (digit_char (n mod 10)) EmptyString)).

Definition hex_char (d : Z) : ascii :=
  if decide (d < 10) then ascii_of_nat (Z.to_nat (48 + d))
  else ascii_of_nat (Z.to_nat (87 + d)).

(** The format [f"{b:02x}"]. *)
Definition format_02x (b : byte) : string :=
  let n := byte_to_Z b in
  String (hex_char (n / 16)) (String (hex_char (n mod 16)) EmptyString).

(** [sep.join(parts)]. *)
Fixpoint join (sep : string) (parts : list string) : string :=
  match parts with
  | [] => EmptyString
  | [p] => p
  | p :: parts => p +:+ sep +:+ join sep parts
  end.

(** [s.split(sep)] for a separator of one character. *)
Fixpoint split (sep : ascii) (s : string) : list string :=
  match s with
  | EmptyString => [EmptyString]
  | String c s =>
      if decide (c = sep) then EmptyString :: split sep s
      else
        match split sep s with
        | [] => [String c EmptyString]
        | p :: parts => String c p :: parts
        end
  end.

(** [c not in s]. *)
Fixpoint no_char (c : ascii) (s : string) : bool :=
  match s with
  | EmptyString => true
  | String c' s => if decide (c' = c) then false else no_char c s
  end.

Definition _mac_to_str (mac_bytes : bytes) : string :=
  join ":" (format_02x <$> mac_bytes).

(** The value of a decimal digit, [None] for any other character. *)
Definition digit_value (c : ascii) : option Z :=
  let n := Z.of_nat (nat_of_ascii c) in
  if decide (48 <= n <= 57) then Some (n - 48) else None.

(** [int(s, 10)] on top of [acc], [None] when [s] has a character that is
    not an ASCII digit. *)
Fixpoint int_of_digits (acc : Z) (s : string) : option Z :=
  match s with
  | EmptyString => Some acc
  | String c s =>
      match digit_value c with
      | Some d => int_of_digits (acc * 10 + d) s
      | None => None
      end
  end.

(** [IPv4Address._parse_octet]: [None] stands for its [ValueError]. *)
Definition _parse_octet (octet_str : string) : option Z :=
  match octet_str with
  | EmptyString => None
  | String c0 _ =>
      match int_of_digits 0 octet_str with
      | None => None
      | Some octet_int =>
          if decide (3 < String.length octet_str)%nat then None
          else if decide (octet_str <> "0" /\ c0 = "0"%char) then None
          else if decide (octet_int > 255) then None
          else Some octet_int
      end
  end.

(** [IPv4Address._ip_int_from_string]: [None] stands for its
    [AddressValueError]. *)
Definition _ip_int_from_string (ip_str : string) : option Z :=
  match ip_str with
  | EmptyString => None
  | _ =>
      let octets := split "." ip_str in
      if decide (length octets <> 4%nat) then None
      else
        match mapM _parse_octet octets with
        | Some values => Some (int_from_bytes 0 (byte_of_Z <$> values))
        | None => None
        end
  end.

(** [str(ip)] for an [IPv4Address] of integer [ip]. *)
Definition IPv4Address_str (ip : Z) : string :=
  join "." (str_byte <$> int_to_bytes 4 ip).

(** [socket.inet_ntoa(packed)]: [OSError] unless [packed] has 4 bytes. *)
Definition inet_ntoa (packed : bytes) : result string :=
  if decide (length packed = 4%nat) then Ok (join "." (str_byte <$> packed))
  else Raise OSError.

(** [socket.inet_aton(s)] on dotted-quad text, four decimal parts without
    leading zeros, which is the form [str] of an address and the
    configuration give.  The shorthand forms of the C function (fewer
    parts, octal or hexadecimal parts) are not modelled: they are read as
    an [OSError] here, and nothing below relies on that. *)
Definition inet_aton (s : string) : result bytes :=
  match _ip_int_from_string s with
  | Some ip => Ok (int_to_bytes 4 ip)
  | None => Raise OSError
  end.

(** ** Sample inputs *)

(** A datagram with a well-formed header (Ethernet, [hlen] 6, [xid]
    12345678 in hexadecimal, hardware address aa:bb:cc:dd:ee:ff), the magic
    cookie and the option bytes [options]. *)
Definition sample_datagram (options : bytes) : bytes :=
  [x01; x01; x06; x00; x12; x34; x56; x78; x00; x00; x00; x00]
  ++ replicate 16 x00
  ++ [xaa; xbb; xcc; xdd; xee; xff] ++ replicate 10 x00
  ++ replicate 192 x00
  ++ MAGIC_COOKIE ++ options.

(** A REQUEST (option 53 is 3) whose option 50, the requested address, is
    complete but has three bytes instead of four. *)
Definition request_short_address : bytes :=
  sample_datagram [x35; x01; x03; x32; x03; x0a; x00; x00; xff].

(** Option bytes that end inside the value of option 50: four bytes are
    announced, three are there. *)
Definition options_cut_in_value : bytes :=
  [x35; x01; x03; x32; x04; x0a; x00; x00].

(** A clock that advances by one tick at each reading, and a parser that
    accepts no text as an IPv6 address. *)
Definition sample_clock (t : nat) : Z := 1000 + Z.of_nat t.
Definition no_ipv6 (address : string) : option Z := None.

(** ** Timestamps *)

(** The integers [float] converts: those that round, to 53 bits and half
    to even, to a magnitude below [2 ^ 1024]. *)
Definition FLOAT_INT_LIMIT : Z := 2 ^ 1024 - 2 ^ 970.

Definition float_range (n : Z) : Prop :=
  - FLOAT_INT_LIMIT < n < FLOAT_INT_LIMIT.

#[global] Instance float_range_dec (n : Z) : Decision (float_range n).
Proof. unfold float_range. apply _. Defined.

(** [now + lease_time] for a timestamp [now] and a lease duration
    [lease_time], an [int]: the duration is first converted to a [float],
    which raises [OverflowError] outside the float range. *)
Definition lease_expiry (now lease_time : Z) : result Z :=
  if decide (float_range lease_time) then Ok (now + lease_time)
  else Raise OverflowError.

(** A lease duration no [float] can hold. *)
Definition huge_lease_time : Z := 2 ^ 1024.

(** A parser that reads the text of the IPv6 loopback address and nothing
    else. *)
Definition loopback_ipv6 (address : string) : option Z :=
  if decide (address = "::1") then Some 1 else None.

(** ** The environment of the program *)

Section Program.

(** [clock t] is the value returned by the [t]-th call of [time.time()]
    made by the process.  The program only compares timestamps and adds the
    lease duration to them, so they are read on an integer grid of clock
    ticks, the lease duration being counted in the same unit; the addition
    is [lease_expiry]. *)
Variable clock : nat -> Z.

(** [IPv6Address._ip_int_from_string] of the standard library, [None] for
    its [AddressValueError]. *)
Variable ipv6_int_from_string : string -> option Z.

(** The objects [ipaddress.ip_address] returns. *)
Inductive ip_object :=
| IPv4Address (ip : Z)
| IPv6Address (ip : Z).

(** [ipaddress.ip_address(address)] on text: an IPv4 address if it parses
    as one, otherwise an IPv6 address if it parses as one, otherwise (here
    [None]) a [ValueError]. *)
Definition ip_address (address : string) : option ip_object :=
  match _ip_int_from_string address with
  | Some ip => Some (IPv4Address ip)
  | None =>
      match ipv6_int_from_string address with
      | Some ip => Some (IPv6Address ip)
      | None => None
      end
  end.

(** ** The lease pool *)

(** The fields of a [LeaseManager].  The pool bounds are [IPv4Address]
    objects, kept as their integers; [leases] maps a hardware address to
    the integer of its address and its expiry. *)
Record LeaseManager := {
  pool_start : Z;
  pool_end : Z;
  lease_time : Z;
  leases : gmap string (Z * Z)
}.

(** [LeaseManager.__init__] on bounds already parsed. *)
Definition LeaseManager_init (pool_start pool_end lease_time : Z) : LeaseManager :=
  {| pool_start := pool_start; pool_end := pool_end;
     lease_time := lease_time; leases := ∅ |}.

(** A fresh manager of the pool 10.0.0.10 - 10.0.0.12 with leases of 60
    ticks. *)
Definition sample_manager : LeaseManager :=
  LeaseManager_init 167772170 167772172 60.

(** The assignment [self.leases[mac] = (ip_addr, expiry)]. *)
Definition set_lease (self : LeaseManager) (mac : string) (ip_addr expiry : Z)
    : LeaseManager :=
  {| pool_start := pool_start self; pool_end := pool_end self;
     lease_time := lease_time self;
     leases := <[mac := (ip_addr, expiry)]> (leases self) |}.

(** The addresses the generator [_iter_pool] yields, in order. *)
Definition _iter_pool (self : LeaseManager) : list Z :=
  seqZ (pool_start self) (pool_end self - pool_start self + 1).

(** [_is_available] when [t] clock readings have been made: its answer
    and the number of readings afterwards. *)
Definition _is_available (self : LeaseManager) (ip_addr : Z) (t : nat) : bool * nat :=
  let now := clock t in
  (forallb
     (fun '(_, (lease_ip, expiry)) =>
        negb (bool_decide (lease_ip = ip_addr) && bool_decide (expiry > now)))
     (map_to_list (leases self)),
   S t).

(** The statements [self.leases[mac] = (ip_addr, now + self.lease_time)]
    and [return ip_addr]: the expiry is computed before the entry is
    written, so nothing is stored when the addition raises. *)
Definition bind_lease (self : LeaseManager) (now : Z) (mac : string)
    (ip_addr : Z) (t : nat) : result (option Z) * LeaseManager * nat :=
  match lease_expiry now (lease_time self) with
  | Ok expiry => (Ok (Some ip_addr), set_lease self mac ip_addr expiry, t)
  | Raise e => (Raise e, self, t)
  end.

(** The last loop of [allocate] over the addresses still to try, and the
    [return None] that follows it. *)
Fixpoint scan_pool (self : LeaseManager) (now : Z) (mac : string)
    (pool : list Z) (t : nat) : result (option Z) * LeaseManager * nat :=
  match pool with
  | [] => (Ok None, self, t)
  | ip_addr :: pool =>
      let '(free, t) := _is_available self ip_addr t in
      if free then bind_lease self now mac ip_addr t
      else scan_pool self now mac pool t
  end.

(** The end of [allocate], from its [for] loop on: the scan of the whole
    pool, [now] being the reading the call made on entry. *)
Definition allocate_scan (self : LeaseManager) (now : Z) (mac : string)
    (t : nat) : result (option Z) * LeaseManager * nat :=
  scan_pool self now mac (_iter_pool self) t.

(** [allocate] from [if requested_ip:] on. *)
Definition allocate_requested (self : LeaseManager) (now : Z) (mac : string)
    (requested_ip : option string) (t : nat)
    : result (option Z) * LeaseManager * nat :=
  match requested_ip with
  | None | Some EmptyString => allocate_scan self now mac t
  | Some requested_ip =>
      match ip_address requested_ip with
      | None => allocate_scan self now mac t          (* except ValueError: pass *)
      | Some (IPv6Address _) => (Raise TypeError, self, t)
      | Some (IPv4Address ip_addr) =>
          if bool_decide (pool_start self <= ip_addr)
             && bool_decide (ip_addr <= pool_end self) then
            let '(free, t) := _is_available self ip_addr t in
            if free then bind_lease self now mac ip_addr t
            else allocate_scan self now mac t
          else allocate_scan self now mac t
      end
  end.

(** [allocate] when [t] clock readings have been made: what the call
    returns or raises, the manager and the number of readings afterwards.
    [requested_ip] is [None] or a string.  Comparing the pool bounds with
    an [IPv6Address] raises [TypeError], which the [except ValueError]
    clause does not catch, and neither does it catch the [OverflowError]
    of [now + self.lease_time]. *)
Definition allocate (self : LeaseManager) (mac : string)
    (requested_ip : option string) (t : nat)
    : result (option Z) * LeaseManager * nat :=
  let now := clock t in
  let t := S t in
  match leases self !! mac with
  | Some (ip_addr, expiry) =>
      if bool_decide (expiry > now) then (Ok (Some ip_addr), self, t)
      else allocate_requested self now mac requested_ip t
  | None => allocate_requested self now mac requested_ip t
  end.

(** A run of [allocate] calls without a requested address, one per
    hardware address of [macs], in order: what each call returns. *)
Fixpoint allocate_all (self : LeaseManager) (macs : list string) (t : nat)
    : list (result (option Z)) * LeaseManager * nat :=
  match macs with
  | [] => ([], self, t)
  | mac :: macs =>
      let '(found, self, t) := allocate self mac None t in
      let '(rest, self, t) := allocate_all self macs t in
      (found :: rest, self, t)
  end.

(** The clock readings made by the first [n] calls of a run that starts
    on an empty table: the call of rank [k] reads the clock once on entry
    and once for each of the [k + 1] addresses it checks. *)
Fixpoint readings_before (n : nat) : nat :=
  match n with
  | O => O
  | S n => (readings_before n + n + 2)%nat
  end.

(** Every lease granted at a reading of the window [t, t') outlives every
    reading of the window: the whole window is before any expiry. *)
Definition before_expiry (t t' : nat) (lease_time : Z) : Prop :=
  forall i j, (t <= i < t')%nat -> (t <= j < t')%nat ->
    clock j < clock i + lease_time.

(** [mac] holds an active lease on [ip_addr] at time [now]. *)
Definition active (self : LeaseManager) (now : Z) (mac : string) (ip_addr : Z)
    : Prop :=
  exists expiry, leases self !! mac = Some (ip_addr, expiry) /\ expiry > now.

(** [mac] has no active lease at time [now]. *)
Definition no_active_lease (self : LeaseManager) (now : Z) (mac : string)
    : Prop :=
  forall ip_addr, ~ active self now mac ip_addr.

(** A call that entered at time [now] and made its later readings from
    the [t]-th up to [t'] bound [mac]: it returned an address of the pool
    that [_is_available] accepted at one of those readings, and stored it
    for [mac] with the expiry [now + lease_time], the lease duration being
    in the float range. *)
Definition binds (self : LeaseManager) (now : Z) (mac : string) (t t' : nat)
    (r : result (option Z)) (self' : LeaseManager) : Prop :=
  exists ip_addr j,
    r = Ok (Some ip_addr)
    /\ self' = set_lease self mac ip_addr (now + lease_time self)
    /\ pool_start self <= ip_addr <= pool_end self
    /\ (t <= j < t')%nat
    /\ (_is_available self ip_addr j).1 = true
    /\ float_range (lease_time self).

(** The manager [self'] after the calls of a run started from [self] with
    an empty table at reading [t], one call for each hardware address of
    [served]: the address of rank [k] holds the [k]-th address of the pool,
    granted at the reading its call made on entry, and nobody else holds
    anything. *)
Definition served_in_order (self self' : LeaseManager) (t : nat)
    (served : list string) : Prop :=
  pool_start self' = pool_start self
  /\ pool_end self' = pool_end self
  /\ lease_time self' = lease_time self
  /\ (forall k mac, served !! k = Some mac ->
        leases self' !! mac
        = Some (pool_start self + Z.of_nat k,
                clock (t + readings_before k) + lease_time self))
  /\ (forall mac, mac ∉ served -> leases self' !! mac = None).

(** No address has two active holders at time [now]. *)
Definition one_holder (self : LeaseManager) (now : Z) : Prop :=
  forall mac1 mac2 ip_addr,
    active self now mac1 ip_addr -> active self now mac2 ip_addr -> mac1 = mac2.

(** [now] can be the current time of a process that has made [t] clock
    readings: it is not before any of them. *)
Definition current_time (t : nat) (now : Z) : Prop :=
  forall k, (k < t)%nat -> clock k <= now.

(** The managers a process reaches from a fresh one by calls of
    [allocate], with the number of clock readings it has made. *)
Inductive reachable (pool_start pool_end lease_time : Z)
    : LeaseManager -> nat -> Prop :=
| reachable_init :
    reachable pool_start pool_end lease_time
      (LeaseManager_init pool_start pool_end lease_time) 0
| reachable_allocate self t mac requested_ip :
    reachable pool_start pool_end lease_time self t ->
    reachable pool_start pool_end lease_time
      (allocate self mac requested_ip t).1.2
      (allocate self mac requested_ip t).2.

(** ** The packet builder *)

(** [struct.unpack("!BBBBIHH", bs)]: [struct.error] unless [bs] has 12
    bytes. *)
Definition unpack_BBBBIHH (bs : bytes) : result (Z * Z * Z * Z * Z * Z * Z) :=
  match bs with
  | [op; htype; hlen; hops; x0; x1; x2; x3; s0; s1; f0; f1] =>
      Ok (byte_to_Z op, byte_to_Z htype, byte_to_Z hlen, byte_to_Z hops,
          int_from_bytes 0 [x0; x1; x2; x3], int_from_bytes 0 [s0; s1],
          int_from_bytes 0 [f0; f1])
  | _ => Raise struct_error
  end.

Definition build_reply (request : bytes) (yiaddr : Z) (server_ip : string)
    (options : bytes) : result bytes :=
  try! header := unpack_BBBBIHH (slice 0 12 request) in
  let '(op, htype, hlen, hops, xid, secs, flags) := header in
  let ciaddr := slice 12 16 request in
  let chaddr := slice 28 (28 + 16) request in
  let sname := replicate 64 x00 in
  let file_field := replicate 128 x00 in
  try! yiaddr := inet_aton (IPv4Address_str yiaddr) in
  try! siaddr := inet_aton server_ip in
  try! p_op := pack_B BOOTREPLY in
  try! p_htype := pack_B htype in
  try! p_hlen := pack_B hlen in
  try! p_hops := pack_B hops in
  try! p_xid := pack_I xid in
  try! p_secs := pack_H secs in
  try! p_flags := pack_H flags in
  let pkt :=
    p_op ++ p_htype ++ p_hlen ++ p_hops ++ p_xid ++ p_secs ++ p_flags
    ++ pack_s 4 ciaddr ++ pack_s 4 yiaddr ++ pack_s 4 siaddr
    ++ pack_s 4 [x00; x00; x00; x00] ++ pack_s 16 chaddr
    ++ pack_s 64 sname ++ pack_s 128 file_field in
  Ok (pkt ++ MAGIC_COOKIE ++ options).

(** ** The message dispatcher *)

(** The values [main] reads from the configuration file before it enters
    its loop; the three masks are already packed by [socket.inet_aton]. *)
Record config := {
  server_ip : string;
  subnet_mask : bytes;
  router : bytes;
  dns : bytes
}.

(** The option block of a reply of message type [msg]. *)
Definition reply_options (cfg : config) (lease_time : Z) (msg : byte)
    : result bytes :=
  try! server_id := inet_aton (server_ip cfg) in
  try! lease := pack_I lease_time in
  build_options
    [(53, Some [msg]); (54, Some server_id); (51, Some lease);
     (1, Some (subnet_mask cfg)); (3, Some (router cfg)); (6, Some (dns cfg))].

(** One iteration of the [while True] loop of [main] on the datagram
    [data], when [t] clock readings have been made: the datagram that is
    broadcast, if any, or the exception that ends the process, with the
    lease manager and the number of readings afterwards. *)
Definition handle_datagram (cfg : config) (lease_manager : LeaseManager)
    (data : bytes) (t : nat) : result (option bytes) * LeaseManager * nat :=
  if decide (length data < 240)%nat then (Ok None, lease_manager, t)
  else if decide (slice 236 240 data <> MAGIC_COOKIE) then (Ok None, lease_manager, t)
  else
    let options := parse_options (drop 240 data) in
    let msg_type := default [x00] (options !! 53) in
    match msg_type with
    | [] => (Ok None, lease_manager, t)
    | _ =>
        let chaddr := slice 28 44 data in
        let hlen := Z.to_nat (byte_to_Z (default x00 (data !! 2%nat))) in
        let mac := _mac_to_str (take hlen chaddr) in
        let answer (msg : byte) (requested_ip : option string) :=
          let '(yiaddr, lease_manager, t) :=
            allocate lease_manager mac requested_ip t in
          match yiaddr with
          | Raise e => (Raise e, lease_manager, t)
          | Ok None => (Ok None, lease_manager, t)
          | Ok (Some yiaddr) =>
              (try! reply_options :=
                 reply_options cfg (lease_time lease_manager) msg in
               try! reply := build_reply data yiaddr (server_ip cfg) reply_options in
               Ok (Some reply),
               lease_manager, t)
          end in
        if decide (msg_type = [byte_of_Z DHCPDISCOVER]) then answer x02 None
        else if decide (msg_type = [byte_of_Z DHCPREQUEST]) then
          match options !! 50 with
          | None | Some [] => answer x05 None
          | Some requested =>
              match inet_ntoa requested with
              | Raise e => (Raise e, lease_manager, t)
              | Ok requested_ip => answer x05 (Some requested_ip)
              end
          end
        else (Ok None, lease_manager, t)
    end.

(** The hardware address of a datagram as [main] derives it: the text of
    the first [hlen] bytes of [chaddr]. *)
Definition datagram_mac (data : bytes) : string :=
  _mac_to_str
    (take (Z.to_nat (byte_to_Z (default x00 (data !! 2%nat)))) (slice 28 44 data)).

(** What [main] does for a DISCOVER or a REQUEST once it knows the
    requested address: allocate, then build the reply of message type
    [msg] when there is an address. *)
Definition send_reply (cfg : config) (lease_manager : LeaseManager)
    (data : bytes) (msg : byte) (requested_ip : option string) (t : nat)
    : result (option bytes) * LeaseManager * nat :=
  let '(yiaddr, lease_manager, t) :=
    allocate lease_manager (datagram_mac data) requested_ip t in
  match yiaddr with
  | Raise e => (Raise e, lease_manager, t)
  | Ok None => (Ok None, lease_manager, t)
  | Ok (Some yiaddr) =>
      (try! reply_options := reply_options cfg (lease_time lease_manager) msg in
       try! reply := build_reply data yiaddr (server_ip cfg) reply_options in
       Ok (Some reply),
       lease_manager, t)
  end.

(** The option entries of a reply of message type [msg]. *)
Definition reply_entries (cfg : config) (server_id lease : bytes) (msg : byte)
    : list (Z * option bytes) :=
  [(53, Some [msg]); (54, Some server_id); (51, Some lease);
   (1, Some (subnet_mask cfg)); (3, Some (router cfg)); (6, Some (dns cfg))].

(** A configuration for the sample manager: server 10.0.0.1, mask
    255.255.255.0, router 10.0.0.1, DNS 8.8.8.8. *)
Definition sample_config : config :=
  {| server_ip := "10.0.0.1";
     subnet_mask := [xff; xff; xff; x00];
     router := [x0a; x00; x00; x01];
     dns := [x08; x08; x08; x08] |}.

(** The lease managers the loop of [main] reaches from a fresh one, with
    the number of clock readings made, whatever datagrams arrive. *)
Inductive loop_reachable (cfg : config) (pool_start pool_end lease_time : Z)
    : LeaseManager -> nat -> Prop :=
| loop_start :
    loop_reachable cfg pool_start pool_end lease_time
      (LeaseManager_init pool_start pool_end lease_time) 0
| loop_iteration lease_manager t data :
    loop_reachable cfg pool_start pool_end lease_time lease_manager t ->
    loop_reachable cfg pool_start pool_end lease_time
      (handle_datagram cfg lease_manager data t).1.2
      (handle_datagram cfg lease_manager data t).2.


(** * Verification *)

(** ** Bytes and big-endian integers *)

Lemma byte_to_Z_range (b : byte) : 0 <= byte_to_Z b < 256.
Proof.
  unfold byte_to_Z. pose proof (Byte.to_N_bounded b). lia.
Qed.

Lemma byte_of_to_Z (b : byte) : byte_of_Z (byte_to_Z b) = b.
Proof.
  unfold byte_of_Z. pose proof (byte_to_Z_range b) as Hb.
  rewrite Z.mod_small by lia. unfold byte_to_Z.
  rewrite N2Z.id, Byte.of_to_N. reflexivity.
Qed.

Lemma byte_to_of_Z (z : Z) : 0 <= z < 256 -> byte_to_Z (byte_of_Z z) = z.
Proof.
  intros Hz. unfold byte_of_Z, byte_to_Z. rewrite Z.mod_small by lia.
  destruct (Byte.of_N (Z.to_N z)) as [b|] eqn:Hof.
  - apply Byte.to_of_N in Hof. simpl. rewrite Hof. lia.
  - apply Byte.of_N_None_iff in Hof. lia.
Qed.

Lemma byte_to_of_Z_mod (z : Z) : byte_to_Z (byte_of_Z z) = z mod 256.
Proof.
  assert (byte_of_Z z = byte_of_Z (z mod 256)) as ->
    by (unfold byte_of_Z; by rewrite Z.mod_mod).
  apply byte_to_of_Z, Z.mod_pos_bound. lia.
Qed.

Lemma byte_of_Z_add_mul (acc : Z) (b : byte) :
  byte_of_Z (acc * 256 + byte_to_Z b) = b.
Proof.
  rewrite <- (byte_of_to_Z b) at 2. unfold byte_of_Z.
  rewrite Z.add_comm, Z.mod_add by lia. reflexivity.
Qed.

Lemma pack_B_byte (b : byte) : pack_B (byte_to_Z b) = Ok [b].
Proof.
  unfold pack_B. pose proof (byte_to_Z_range b).
  case_decide; [|lia]. by rewrite byte_of_to_Z.
Qed.

Lemma length_int_to_bytes (n : nat) (z : Z) : length (int_to_bytes n z) = n.
Proof.
  revert z. induction n as [|n IH]; intros z; simpl; [done|].
  rewrite length_app, IH. simpl. lia.
Qed.

(** Packing the integer read from [bs] on top of [acc] gives back [bs]
    after the bytes of [acc]. *)
Lemma int_to_bytes_from_bytes (bs : bytes) (acc : Z) (n : nat) :
  int_to_bytes (n + length bs) (int_from_bytes acc bs)
  = int_to_bytes n acc ++ bs.
Proof.
  revert acc n. induction bs as [|b bs IH]; intros acc n; simpl.
  - by rewrite Nat.add_0_r, app_nil_r.
  - replace (n + S (length bs))%nat with (S n + length bs)%nat by lia.
    rewrite IH. simpl. pose proof (byte_to_Z_range b).
    rewrite byte_of_Z_add_mul.
    replace ((acc * 256 + byte_to_Z b) / 256) with acc.
    + by rewrite <- app_assoc.
    + symmetry. rewrite Z.add_comm, Z.div_add by lia.
      rewrite Z.div_small by lia. lia.
Qed.

Lemma int_from_bytes_range (bs : bytes) (acc : Z) :
  0 <= acc ->
  acc * 256 ^ Z.of_nat (length bs) <= int_from_bytes acc bs
  < (acc + 1) * 256 ^ Z.of_nat (length bs).
Proof.
  revert acc. induction bs as [|b bs IH]; intros acc Hacc.
  - simpl. lia.
  - cbn [int_from_bytes length]. pose proof (byte_to_Z_range b).
    specialize (IH (acc * 256 + byte_to_Z b) ltac:(lia)).
    rewrite Nat2Z.inj_succ, Z.pow_succ_r by lia.
    assert (0 < 256 ^ Z.of_nat (length bs)) by (apply Z.pow_pos_nonneg; lia).
    nia.
Qed.

Lemma pack_I_from_bytes (x0 x1 x2 x3 : byte) :
  pack_I (int_from_bytes 0 [x0; x1; x2; x3]) = Ok [x0; x1; x2; x3].
Proof.
  unfold pack_I.
  pose proof (int_from_bytes_range [x0; x1; x2; x3] 0 ltac:(lia)) as Hr.
  change (256 ^ Z.of_nat (length [x0; x1; x2; x3])) with (2 ^ 32) in Hr.
  case_decide; [|lia].
  f_equal. exact (int_to_bytes_from_bytes [x0; x1; x2; x3] 0 0).
Qed.

Lemma pack_H_from_bytes (x0 x1 : byte) :
  pack_H (int_from_bytes 0 [x0; x1]) = Ok [x0; x1].
Proof.
  unfold pack_H.
  pose proof (int_from_bytes_range [x0; x1] 0 ltac:(lia)) as Hr.
  change (256 ^ Z.of_nat (length [x0; x1])) with (2 ^ 16) in Hr.
  case_decide; [|lia].
  f_equal. exact (int_to_bytes_from_bytes [x0; x1] 0 0).
Qed.

(** ** The option codec *)

Lemma parse_loop_unfold (fuel : nat) (raw : bytes) (idx : nat)
    (options : gmap Z bytes) :
  parse_loop (S fuel) raw idx options =
  match raw !! idx with
  | None => options
  | Some code =>
      if decide (byte_to_Z code = 255) then options
      else if decide (byte_to_Z code = 0) then parse_loop fuel raw (S idx) options
      else
        match raw !! S idx with
        | None => options
        | Some len =>
            parse_loop fuel raw (S (S idx) + Z.to_nat (byte_to_Z len))
              (<[byte_to_Z code :=
                   slice (S (S idx)) (S (S idx) + Z.to_nat (byte_to_Z len)) raw]>
                 options)
        end
  end.
Proof. reflexivity. Qed.

(** The fuel of [parse_options] is never exhausted: once the fuel covers
    the bytes left, more fuel changes nothing. *)
Lemma parse_loop_fuel_S (fuel : nat) (raw : bytes) (idx : nat)
    (options : gmap Z bytes) :
  (length raw <= idx + fuel)%nat ->
  parse_loop (S fuel) raw idx options = parse_loop fuel raw idx options.
Proof.
  revert idx options. induction fuel as [|fuel IH]; intros idx options Hlen.
  - rewrite parse_loop_unfold. rewrite lookup_ge_None_2 by lia. reflexivity.
  - rewrite (parse_loop_unfold fuel raw idx options), (parse_loop_unfold (S fuel)).
    destruct (raw !! idx) as [code|]; [|done].
    repeat case_decide; try done.
    + apply IH. lia.
    + destruct (raw !! S idx) as [len|]; [|done]. apply IH. lia.
Qed.

Lemma parse_loop_fuel_ge (fuel fuel' : nat) (raw : bytes) (idx : nat)
    (options : gmap Z bytes) :
  (length raw <= idx + fuel)%nat -> (fuel <= fuel')%nat ->
  parse_loop fuel' raw idx options = parse_loop fuel raw idx options.
Proof.
  intros Hlen Hle. induction Hle as [|fuel' Hle IH]; [done|].
  rewrite parse_loop_fuel_S by lia. exact IH.
Qed.

(** One complete option in the middle of the buffer. *)
Lemma parse_loop_entry (fuel : nat) (pre rest value : bytes) (code len : byte)
    (options : gmap Z bytes) :
  byte_to_Z code <> 255 -> byte_to_Z code <> 0 ->
  Z.to_nat (byte_to_Z len) = length value ->
  parse_loop (S fuel) (pre ++ code :: len :: value ++ rest) (length pre) options
  = parse_loop fuel (pre ++ code :: len :: value ++ rest)
      (length (pre ++ code :: len :: value))
      (<[byte_to_Z code := value]> options).
Proof.
  intros H255 H0 Hlen. rewrite parse_loop_unfold.
  rewrite list_lookup_middle by done.
  do 2 (case_decide; [done|]).
  replace (pre ++ code :: len :: value ++ rest)
    with ((pre ++ [code]) ++ len :: value ++ rest) at 1
    by (by rewrite <- app_assoc).
  rewrite list_lookup_middle by (rewrite length_app; simpl; lia).
  rewrite Hlen. f_equal.
  - rewrite length_app. simpl. lia.
  - f_equal. unfold slice.
    replace (S (S (length pre)) + length value - S (S (length pre)))%nat
      with (length value) by lia.
    replace (pre ++ code :: len :: value ++ rest)
      with ((pre ++ [code; len]) ++ value ++ rest)
      by (by rewrite <- app_assoc).
    rewrite drop_app_length' by (rewrite length_app; simpl; lia).
    by rewrite take_app_length.
Qed.

(** The terminator stops the scan, whatever follows it. *)
Lemma parse_loop_terminator (fuel : nat) (pre rest : bytes)
    (options : gmap Z bytes) :
  parse_loop (S fuel) (pre ++ xff :: rest) (length pre) options = options.
Proof.
  rewrite parse_loop_unfold, list_lookup_middle by done.
  by case_decide.
Qed.

Lemma parse_loop_from (fuel : nat) (raw : bytes) (idx : nat)
    (options : gmap Z bytes) :
  (length raw <= idx + fuel)%nat ->
  parse_loop fuel raw idx options = parse_from raw idx options.
Proof.
  intros Hlen. unfold parse_from. apply parse_loop_fuel_ge; lia.
Qed.

Lemma parse_options_from (raw : bytes) : parse_options raw = parse_from raw 0 ∅.
Proof. unfold parse_options, parse_from. by rewrite Nat.sub_0_r. Qed.

Lemma parse_from_entry (pre rest value : bytes) (code len : byte)
    (options : gmap Z bytes) :
  byte_to_Z code <> 255 -> byte_to_Z code <> 0 ->
  Z.to_nat (byte_to_Z len) = length value ->
  parse_from (pre ++ code :: len :: value ++ rest) (length pre) options
  = parse_from (pre ++ code :: len :: value ++ rest)
      (length (pre ++ code :: len :: value))
      (<[byte_to_Z code := value]> options).
Proof.
  intros H255 H0 Hlen. unfold parse_from at 1.
  set (raw := pre ++ code :: len :: value ++ rest).
  assert (length raw = length pre + S (S (length value + length rest)))%nat
    as Hraw by (unfold raw; rewrite length_app; simpl; rewrite length_app; lia).
  replace (length raw - length pre)%nat
    with (S (S (length value + length rest))) by lia.
  unfold raw. rewrite parse_loop_entry by done. fold raw.
  apply parse_loop_from. rewrite length_app. simpl. lia.
Qed.

Lemma parse_from_terminator (pre rest : bytes) (options : gmap Z bytes) :
  parse_from (pre ++ xff :: rest) (length pre) options = options.
Proof.
  unfold parse_from. rewrite length_app. simpl.
  replace (length pre + S (length rest) - length pre)%nat
    with (S (length rest)) by lia.
  apply parse_loop_terminator.
Qed.

(** The buffer ends where a length byte is due: the scan stops and the
    option that was begun leaves no entry. *)
Lemma parse_from_missing_length (pre : bytes) (code : byte)
    (options : gmap Z bytes) :
  parse_from (pre ++ [code]) (length pre) options = options.
Proof.
  unfold parse_from. rewrite length_app. simpl.
  replace (length pre + 1 - length pre)%nat with 1%nat by lia.
  rewrite parse_loop_unfold, list_lookup_middle by done.
  repeat case_decide; try done.
  rewrite lookup_ge_None_2; [done|]. rewrite length_app. simpl. lia.
Qed.

(** The buffer ends inside a value: the option is recorded all the same,
    with the bytes of the value that are there. *)
Lemma parse_from_short_value (pre value : bytes) (code len : byte)
    (options : gmap Z bytes) :
  byte_to_Z code <> 255 -> byte_to_Z code <> 0 ->
  (length value < Z.to_nat (byte_to_Z len))%nat ->
  parse_from (pre ++ code :: len :: value) (length pre) options
  = <[byte_to_Z code := value]> options.
Proof.
  intros H255 H0 Hshort. unfold parse_from. rewrite length_app. simpl.
  replace (length pre + S (S (length value)) - length pre)%nat
    with (S (S (length value))) by lia.
  rewrite parse_loop_unfold, list_lookup_middle by done.
  do 2 (case_decide; [done|]).
  replace (pre ++ code :: len :: value)
    with ((pre ++ [code]) ++ len :: value) at 1 by (by rewrite <- app_assoc).
  rewrite list_lookup_middle by (rewrite length_app; simpl; lia).
  assert (slice (S (S (length pre)))
            (S (S (length pre)) + Z.to_nat (byte_to_Z len))
            (pre ++ code :: len :: value) = value) as ->.
  { unfold slice.
    replace (pre ++ code :: len :: value)
      with ((pre ++ [code; len]) ++ value) by (by rewrite <- app_assoc).
    rewrite drop_app_length' by (rewrite length_app; simpl; lia).
    apply take_ge. lia. }
  destruct (length value) as [|n] eqn:Hn.
  - simpl. rewrite lookup_ge_None_2; [done|]. rewrite length_app. simpl. lia.
  - rewrite parse_loop_unfold. rewrite lookup_ge_None_2; [done|].
    rewrite length_app. simpl. lia.
Qed.

(** The options that are complete are read one after the other, whatever
    follows them. *)
Lemma parse_from_encode (options : list (Z * option bytes)) :
  encodable options ->
  forall pre tail acc,
    parse_from (pre ++ encode options ++ tail) (length pre) acc
    = parse_from (pre ++ encode options ++ tail)
        (length (pre ++ encode options)) (add_entries acc options).
Proof.
  induction options as [|[code [value|]] options IH]; intros Henc pre tail acc.
  - simpl. by rewrite app_nil_r.
  - apply Forall_cons in Henc as [[Hcode Hlen] Henc].
    cbn [encode add_entries fold_left].
    set (c := byte_of_Z code).
    set (l := byte_of_Z (Z.of_nat (length value))).
    replace (pre ++ (c :: l :: value ++ encode options) ++ tail)
      with (pre ++ c :: l :: value ++ encode options ++ tail)
      by (simpl; by rewrite <- app_assoc).
    assert (byte_to_Z c = code) as Hc by (apply byte_to_of_Z; lia).
    rewrite parse_from_entry;
      [|lia|lia|unfold l; rewrite byte_to_of_Z; lia].
    rewrite Hc.
    replace (pre ++ c :: l :: value ++ encode options ++ tail)
      with ((pre ++ c :: l :: value) ++ encode options ++ tail)
      by (by rewrite <- app_assoc).
    rewrite (IH Henc). do 2 f_equal. by rewrite <- app_assoc.
  - apply Forall_cons in Henc as [_ Henc]. apply (IH Henc).
Qed.

Lemma build_options_encode (options : list (Z * option bytes)) :
  encodable options -> build_options options = Ok (encode options ++ [xff]).
Proof.
  intros Henc. unfold build_options.
  assert (exists parts, build_parts options = Ok parts
                        /\ concat parts = encode options ++ [xff])
    as (parts & -> & <-); [|done].
  induction options as [|[code [value|]] options IH].
  - by exists [[xff]].
  - apply Forall_cons in Henc as [[Hcode Hlen] Henc].
    destruct (IH Henc) as (parts & Hparts & Hconcat).
    eexists. cbn [build_parts]. unfold pack_B.
    do 2 (case_decide; [|lia]). rewrite Hparts. split; [done|].
    simpl. rewrite Hconcat. by rewrite <- app_assoc.
  - apply Forall_cons in Henc as [_ Henc]. apply (IH Henc).
Qed.

(** C5, as amended.  For every ordered option list whose present entries
    have a code between 1 and 254 and a value of at most 255 bytes,
    [build_options] returns a buffer and [parse_options] of that buffer is
    exactly the mapping of the list's entries (entries without a value
    skipped, the last occurrence of a code winning); the terminator
    contributes no entry. *)
Theorem parse_build_roundtrip (options : list (Z * option bytes)) :
  encodable options ->
  exists raw,
    build_options options = Ok raw
    /\ parse_options raw = option_entries options.
Proof.
  intros Henc. exists (encode options ++ [xff]).
  split; [by apply build_options_encode|].
  rewrite parse_options_from.
  rewrite (parse_from_encode options Henc [] [xff] ∅).
  apply (parse_from_terminator (encode options) []).
Qed.

(** What [parse_options] returns on a buffer cut after complete options:
    nothing more when the cut falls on a length byte, and an entry with the
    bytes that are left when it falls inside a value. *)
Lemma parse_options_cut_at_length (options : list (Z * option bytes))
    (code : byte) :
  encodable options ->
  parse_options (encode options ++ [code]) = option_entries options.
Proof.
  intros Henc. rewrite parse_options_from.
  rewrite (parse_from_encode options Henc [] [code] ∅).
  apply (parse_from_missing_length (encode options)).
Qed.

Lemma parse_options_cut_in_value (options : list (Z * option bytes))
    (code len : byte) (value : bytes) :
  encodable options ->
  byte_to_Z code <> 255 -> byte_to_Z code <> 0 ->
  (length value < Z.to_nat (byte_to_Z len))%nat ->
  parse_options (encode options ++ code :: len :: value)
  = <[byte_to_Z code := value]> (option_entries options).
Proof.
  intros Henc H255 H0 Hshort. rewrite parse_options_from.
  rewrite (parse_from_encode options Henc [] (code :: len :: value) ∅).
  by apply (parse_from_short_value (encode options)).
Qed.

(** ** Text forms of addresses *)

Lemma split_no_char (sep : ascii) (s : string) :
  no_char sep s = true -> split sep s = [s].
Proof.
  induction s as [|c s IH]; simpl; [done|].
  case_decide; [done|]. intros Hs. by rewrite (IH Hs).
Qed.

Lemma split_append (sep : ascii) (p rest : string) :
  no_char sep p = true ->
  split sep (p +:+ String sep rest) = p :: split sep rest.
Proof.
  induction p as [|c p IH]; simpl.
  - intros _. by case_decide.
  - case_decide; [done|]. intros Hp. by rewrite (IH Hp).
Qed.

Lemma str_byte_no_dot (b : byte) : no_char "." (str_byte b) = true.
Proof. destruct b; reflexivity. Qed.

Lemma parse_octet_str_byte (b : byte) :
  _parse_octet (str_byte b) = Some (byte_to_Z b).
Proof. destruct b; reflexivity. Qed.

Lemma str_byte_nonempty (b : byte) :
  exists c s, str_byte b = String c s.
Proof. unfold str_byte. repeat case_decide; eauto. Qed.

Lemma ip_int_from_string_split (ip_str : string) :
  ip_str <> EmptyString ->
  _ip_int_from_string ip_str =
  if decide (length (split "." ip_str) <> 4%nat) then None
  else
    match mapM _parse_octet (split "." ip_str) with
    | Some values => Some (int_from_bytes 0 (byte_of_Z <$> values))
    | None => None
    end.
Proof. by destruct ip_str. Qed.

(** The dotted quad of four bytes reads back as their big-endian
    integer. *)
Lemma ip_int_from_dotted_quad (b0 b1 b2 b3 : byte) :
  _ip_int_from_string (join "." (str_byte <$> [b0; b1; b2; b3]))
  = Some (int_from_bytes 0 [b0; b1; b2; b3]).
Proof.
  cbn [fmap list_fmap join].
  assert (split "." (str_byte b0 +:+ "." +:+ str_byte b1 +:+ "." +:+
                     str_byte b2 +:+ "." +:+ str_byte b3)
          = [str_byte b0; str_byte b1; str_byte b2; str_byte b3]) as Hsplit.
  { change (split "."
              (str_byte b0 +:+ String "."
                 (str_byte b1 +:+ String "."
                    (str_byte b2 +:+ String "." (str_byte b3))))
            = [str_byte b0; str_byte b1; str_byte b2; str_byte b3]).
    rewrite !split_append by apply str_byte_no_dot.
    by rewrite split_no_char by apply str_byte_no_dot. }
  rewrite ip_int_from_string_split.
  2:{ destruct (str_byte_nonempty b0) as (c & s & ->). discriminate. }
  rewrite Hsplit. cbn [length]. case_decide; [done|].
  cbn [mapM]. rewrite !parse_octet_str_byte. cbn.
  by rewrite !byte_of_to_Z.
Qed.

Lemma inet_aton_dotted_quad (packed : bytes) :
  length packed = 4%nat ->
  inet_aton (join "." (str_byte <$> packed)) = Ok packed.
Proof.
  intros Hlen.
  destruct packed as [|b0 [|b1 [|b2 [|b3 [|]]]]]; try discriminate.
  unfold inet_aton. rewrite ip_int_from_dotted_quad. f_equal.
  exact (int_to_bytes_from_bytes [b0; b1; b2; b3] 0 0).
Qed.

(** [socket.inet_aton(str(ip))] is the big-endian packing of [ip]. *)
Lemma inet_aton_IPv4Address_str (ip : Z) :
  inet_aton (IPv4Address_str ip) = Ok (int_to_bytes 4 ip).
Proof.
  apply inet_aton_dotted_quad, length_int_to_bytes.
Qed.

Lemma inet_aton_length (s : string) (packed : bytes) :
  inet_aton s = Ok packed -> length packed = 4%nat.
Proof.
  unfold inet_aton. destruct (_ip_int_from_string s); [|done].
  intros [= <-]. reflexivity.
Qed.

(** The text [socket.inet_ntoa] gives is read by [ipaddress.ip_address]
    as the IPv4 address of the same four bytes. *)
Lemma ip_address_inet_ntoa (packed : bytes) (s : string) :
  inet_ntoa packed = Ok s ->
  ip_address s = Some (IPv4Address (int_from_bytes 0 packed)).
Proof.
  unfold inet_ntoa. case_decide as Hlen; [|done]. intros [= <-].
  destruct packed as [|b0 [|b1 [|b2 [|b3 [|]]]]]; try discriminate.
  unfold ip_address. by rewrite ip_int_from_dotted_quad.
Qed.

(** ** The packet builder *)

Lemma int_from_bytes_app (acc : Z) (bs bs' : bytes) :
  int_from_bytes acc (bs ++ bs') = int_from_bytes (int_from_bytes acc bs) bs'.
Proof. revert acc. induction bs as [|b bs IH]; intros acc; simpl; [done|apply IH]. Qed.

Lemma int_from_to_bytes (n : nat) (acc z : Z) :
  int_from_bytes acc (int_to_bytes n z)
  = acc * 256 ^ Z.of_nat n + z mod 256 ^ Z.of_nat n.
Proof.
  revert acc z. induction n as [|n IH]; intros acc z.
  - simpl. rewrite Z.mod_1_r. lia.
  - cbn [int_to_bytes]. rewrite int_from_bytes_app, IH. cbn [int_from_bytes].
    rewrite Nat2Z.inj_succ, Z.pow_succ_r by lia.
    assert (0 < 256 ^ Z.of_nat n) by (apply Z.pow_pos_nonneg; lia).
    rewrite (Z.rem_mul_r z 256 (256 ^ Z.of_nat n)) by lia.
    rewrite byte_to_of_Z_mod. lia.
Qed.

(** The four bytes of an IPv4 address decode to the address. *)
Lemma int_from_to_bytes_4 (ip : Z) :
  0 <= ip < 2 ^ 32 -> int_from_bytes 0 (int_to_bytes 4 ip) = ip.
Proof.
  intros Hip. rewrite int_from_to_bytes.
  change (256 ^ Z.of_nat 4) with (2 ^ 32). rewrite Z.mod_small; lia.
Qed.

(** The reply as one concatenation of its fields. *)
Lemma build_reply_eq (request : bytes) (yiaddr : Z) (server_ip : string)
    (siaddr options : bytes) :
  (44 <= length request)%nat ->
  inet_aton server_ip = Ok siaddr ->
  build_reply request yiaddr server_ip options
  = Ok (x02 :: slice 1 12 request ++ slice 12 16 request
        ++ int_to_bytes 4 yiaddr ++ siaddr ++ replicate 4 x00
        ++ slice 28 44 request ++ replicate 64 x00 ++ replicate 128 x00
        ++ MAGIC_COOKIE ++ options).
Proof.
  intros Hlen Hsi. pose proof (inet_aton_length _ _ Hsi) as Hsil.
  destruct siaddr as [|s0 [|s1 [|s2 [|s3 [|]]]]]; try discriminate.
  do 44 (destruct request as [|? request]; [simpl in Hlen; lia|]).
  unfold build_reply, slice.
  cbn [take drop Nat.sub Nat.add unpack_BBBBIHH rbind].
  rewrite inet_aton_IPv4Address_str, Hsi. cbn [rbind].
  rewrite !pack_B_byte, pack_I_from_bytes, !pack_H_from_bytes.
  cbn [rbind]. reflexivity.
Qed.

(** C6.  For a request of at least 44 bytes, an assigned IPv4 address
    [yiaddr] and a server address whose packed form is [siaddr],
    [build_reply] returns a reply whose [op] byte is 2 (BOOTREPLY); whose
    bytes 1-12 ([htype], [hlen], [hops], [xid], [secs], [flags]), 12-16
    ([ciaddr]) and 28-44 ([chaddr]) are those of the request; whose bytes
    16-20 are [yiaddr] in network order, bytes 20-24 are [siaddr], bytes
    24-28 ([giaddr]) are zero, bytes 44-108 ([sname]) are 64 zero bytes and
    bytes 108-236 ([file]) are 128 zero bytes; the header is 236 bytes
    long and is followed by the magic cookie 63 82 53 63 and then by the
    option bytes. *)
Theorem build_reply_layout (request : bytes) (yiaddr : Z) (server_ip : string)
    (siaddr options : bytes) :
  (44 <= length request)%nat ->
  0 <= yiaddr < 2 ^ 32 ->
  inet_aton server_ip = Ok siaddr ->
  exists reply,
    build_reply request yiaddr server_ip options = Ok reply
    /\ slice 0 1 reply = [byte_of_Z BOOTREPLY]
    /\ slice 1 12 reply = slice 1 12 request
    /\ slice 12 16 reply = slice 12 16 request
    /\ int_from_bytes 0 (slice 16 20 reply) = yiaddr
    /\ slice 20 24 reply = siaddr
    /\ slice 24 28 reply = replicate 4 x00
    /\ slice 28 44 reply = slice 28 44 request
    /\ slice 44 108 reply = replicate 64 x00
    /\ slice 108 236 reply = replicate 128 x00
    /\ slice 236 240 reply = [x63; x82; x53; x63]
    /\ drop 240 reply = options
    /\ length reply = (236 + 4 + length options)%nat.
Proof.
  intros Hlen Hyi Hsi. eexists. split; [by apply build_reply_eq|].
  pose proof (inet_aton_length _ _ Hsi) as Hsil.
  destruct siaddr as [|s0 [|s1 [|s2 [|s3 [|]]]]]; try discriminate.
  do 44 (destruct request as [|? request]; [simpl in Hlen; lia|]).
  repeat split; try reflexivity.
  rewrite <- (int_from_to_bytes_4 yiaddr Hyi) at 2. reflexivity.
Qed.

(** ** The lease pool *)

Lemma is_available_reads (self : LeaseManager) (ip_addr : Z) (t : nat) :
  (_is_available self ip_addr t).2 = S t.
Proof. reflexivity. Qed.

(** [_is_available] answers [True] exactly when no entry holds the
    address with an expiry after the reading it makes. *)
Lemma is_available_true (self : LeaseManager) (ip_addr : Z) (t : nat) :
  (_is_available self ip_addr t).1 = true <->
  forall mac, ~ active self (clock t) mac ip_addr.
Proof.
  unfold _is_available, active. cbn [fst]. rewrite forallb_forall. split.
  - intros Hall mac (expiry & Hmac & Hexp).
    apply elem_of_map_to_list, list_elem_of_In, Hall in Hmac. cbn in Hmac.
    rewrite !bool_decide_eq_true_2 in Hmac by done. done.
  - intros Hfree [mac [lease_ip expiry]] Hin.
    apply list_elem_of_In, elem_of_map_to_list in Hin.
    apply negb_true_iff, andb_false_iff.
    destruct (decide (lease_ip = ip_addr)) as [->|Hne].
    + right. apply bool_decide_eq_false_2. intros Hexp.
      apply (Hfree mac). by exists expiry.
    + left. by apply bool_decide_eq_false_2.
Qed.

Lemma forallb_false_In {A} (f : A -> bool) (l : list A) :
  forallb f l = false -> exists x, In x l /\ f x = false.
Proof.
  induction l as [|x l IH]; simpl; [done|].
  destruct (f x) eqn:Hx; simpl.
  - intros (y & Hy & Hfy)%IH. eauto.
  - intros _. eauto.
Qed.

Lemma is_available_false (self : LeaseManager) (ip_addr : Z) (t : nat) :
  (_is_available self ip_addr t).1 = false <->
  exists mac, active self (clock t) mac ip_addr.
Proof.
  split.
  - unfold _is_available. cbn [fst].
    intros ([mac [lease_ip expiry]] & Hin & Hf)%forallb_false_In.
    apply list_elem_of_In, elem_of_map_to_list in Hin.
    apply negb_false_iff, andb_true_iff in Hf as [Hip Hexp].
    apply bool_decide_eq_true in Hip, Hexp. subst lease_ip.
    exists mac, expiry. done.
  - intros (mac & Hact). apply not_true_iff_false.
    intros Hfree. by apply (proj1 (is_available_true self ip_addr t) Hfree mac).
Qed.

Lemma float_range_32 (n : Z) : 0 <= n < 2 ^ 32 -> float_range n.
Proof.
  intros Hn. assert (2 ^ 32 < FLOAT_INT_LIMIT) as Hlimit by (by vm_compute).
  unfold float_range. lia.
Qed.

Lemma bind_lease_ok (self : LeaseManager) (now : Z) (mac : string)
    (ip_addr : Z) (t : nat) :
  float_range (lease_time self) ->
  bind_lease self now mac ip_addr t
  = (Ok (Some ip_addr), set_lease self mac ip_addr (now + lease_time self), t).
Proof.
  intros Hfloat. unfold bind_lease, lease_expiry. by rewrite decide_True.
Qed.

Lemma bind_lease_raise (self : LeaseManager) (now : Z) (mac : string)
    (ip_addr : Z) (t : nat) :
  ~ float_range (lease_time self) ->
  bind_lease self now mac ip_addr t = (Raise OverflowError, self, t).
Proof.
  intros Hfloat. unfold bind_lease, lease_expiry. by rewrite decide_False.
Qed.

(** Binding stores the lease and returns the address, or raises and
    stores nothing. *)
Lemma bind_lease_cases (self : LeaseManager) (now : Z) (mac : string)
    (ip_addr : Z) (t : nat) :
  (float_range (lease_time self)
   /\ bind_lease self now mac ip_addr t
      = (Ok (Some ip_addr),
         set_lease self mac ip_addr (now + lease_time self), t))
  \/ (~ float_range (lease_time self)
      /\ bind_lease self now mac ip_addr t = (Raise OverflowError, self, t)).
Proof.
  destruct (decide (float_range (lease_time self))) as [Hfloat|Hfloat].
  - left. split; [done|]. by apply bind_lease_ok.
  - right. split; [done|]. by apply bind_lease_raise.
Qed.

Lemma scan_pool_cons (self : LeaseManager) (now : Z) (mac : string)
    (ip_addr : Z) (pool : list Z) (t : nat) :
  scan_pool self now mac (ip_addr :: pool) t =
  if (_is_available self ip_addr t).1 then bind_lease self now mac ip_addr (S t)
  else scan_pool self now mac pool (S t).
Proof. reflexivity. Qed.

(** What the scan of the pool does: with no address that [_is_available]
    accepts, each address being checked at its own clock reading, it
    returns [None] and changes nothing; otherwise it binds the first such
    address of the list. *)
Lemma scan_pool_cases (self : LeaseManager) (now : Z) (mac : string)
    (pool : list Z) (t : nat) :
  (scan_pool self now mac pool t = (Ok None, self, (t + length pool)%nat)
   /\ forall i ip, pool !! i = Some ip ->
        (_is_available self ip (t + i)).1 = false)
  \/ exists i ip,
       pool !! i = Some ip
       /\ scan_pool self now mac pool t = bind_lease self now mac ip (S (t + i))
       /\ (_is_available self ip (t + i)).1 = true
       /\ forall j ip', (j < i)%nat -> pool !! j = Some ip' ->
            (_is_available self ip' (t + j)).1 = false.
Proof.
  revert t. induction pool as [|ip pool IH]; intros t.
  - left. simpl. rewrite Nat.add_0_r. split; [done|]. intros i ip Hi. done.
  - rewrite scan_pool_cons.
    destruct (_is_available self ip t).1 eqn:Hav.
    + right. exists 0%nat, ip. rewrite Nat.add_0_r.
      repeat split; try done. lia.
    + destruct (IH (S t)) as [[-> Hnone]|(i & ip' & Hi & -> & Hfree & Hbefore)].
      * left. split; [f_equal; simpl; lia|].
        intros [|i] ip' Hlook.
        -- injection Hlook as <-. by rewrite Nat.add_0_r.
        -- replace (t + S i)%nat with (S t + i)%nat by lia. by apply Hnone.
      * right. exists (S i), ip'.
        replace (t + S i)%nat with (S t + i)%nat by lia.
        repeat split; try done.
        intros [|j] ip'' Hj Hlook.
        -- injection Hlook as <-. by rewrite Nat.add_0_r.
        -- replace (t + S j)%nat with (S t + j)%nat by lia.
           apply Hbefore; [lia|done].
Qed.

Lemma elem_of_iter_pool (self : LeaseManager) (ip : Z) :
  ip ∈ _iter_pool self <-> pool_start self <= ip <= pool_end self.
Proof. unfold _iter_pool. rewrite elem_of_seqZ. lia. Qed.

Lemma allocate_scan_cases (self : LeaseManager) (now : Z) (mac : string)
    (t : nat) :
  match allocate_scan self now mac t with
  | (r, self', t') =>
      (t <= t')%nat
      /\ ((self' = self
           /\ (r = Ok None
               \/ (r = Raise OverflowError /\ ~ float_range (lease_time self))))
          \/ binds self now mac t t' r self')
  end.
Proof.
  unfold allocate_scan.
  destruct (scan_pool_cases self now mac (_iter_pool self) t)
    as [[-> _]|(i & ip & Hi & -> & Hfree & _)].
  - split; [lia|]. left. auto.
  - destruct (bind_lease_cases self now mac ip (S (t + i)))
      as [[Hfloat ->]|[Hfloat ->]].
    + split; [lia|]. right. exists ip, (t + i)%nat.
      apply list_elem_of_lookup_2, elem_of_iter_pool in Hi.
      do 2 (split; [done|]). do 2 (split; [lia|]). done.
    + split; [lia|]. left. auto.
Qed.

Lemma allocate_requested_IPv4 (self : LeaseManager) (now : Z) (mac : string)
    (requested_ip : string) (ip_addr : Z) (t : nat) :
  ip_address requested_ip = Some (IPv4Address ip_addr) ->
  allocate_requested self now mac (Some requested_ip) t =
  if bool_decide (pool_start self <= ip_addr)
     && bool_decide (ip_addr <= pool_end self) then
    if (_is_available self ip_addr t).1 then
      bind_lease self now mac ip_addr (S t)
    else allocate_scan self now mac (S t)
  else allocate_scan self now mac t.
Proof.
  intros Hip. unfold allocate_requested.
  destruct requested_ip as [|c s]; [|by rewrite Hip].
  unfold ip_address in Hip. simpl in Hip.
  by destruct (ipv6_int_from_string "").
Qed.

Lemma allocate_requested_cases (self : LeaseManager) (now : Z) (mac : string)
    (requested_ip : option string) (t : nat) :
  match allocate_requested self now mac requested_ip t with
  | (r, self', t') =>
      (t <= t')%nat
      /\ ((self' = self
           /\ (r = Ok None \/ r = Raise TypeError
               \/ (r = Raise OverflowError /\ ~ float_range (lease_time self))))
          \/ binds self now mac t t' r self')
  end.
Proof.
  assert (forall t0, (t <= t0)%nat ->
          match allocate_scan self now mac t0 with
          | (r, self', t') =>
              (t <= t')%nat
              /\ ((self' = self
                   /\ (r = Ok None \/ r = Raise TypeError
                       \/ (r = Raise OverflowError
                           /\ ~ float_range (lease_time self))))
                  \/ binds self now mac t t' r self')
          end) as Hscan.
  { intros t0 Ht0. pose proof (allocate_scan_cases self now mac t0) as H.
    destruct (allocate_scan self now mac t0) as [[r self'] t'].
    destruct H as [Ht [[-> [->|Hraise]]|(ip & j & Hb)]]; split; try lia; auto.
    right. exists ip, j. intuition lia. }
  destruct requested_ip as [s|]; [|by apply Hscan].
  destruct (ip_address s) as [[ip|ip]|] eqn:Hip;
    [|unfold allocate_requested; destruct s; [by apply Hscan|]; rewrite Hip..].
  3: by apply Hscan.
  - rewrite (allocate_requested_IPv4 _ _ _ _ ip) by done.
    destruct (bool_decide (pool_start self <= ip)
              && bool_decide (ip <= pool_end self)) eqn:Hin; [|by apply Hscan].
    apply andb_true_iff in Hin as [Hlo%bool_decide_eq_true Hhi%bool_decide_eq_true].
    destruct (_is_available self ip t).1 eqn:Hav; [|apply Hscan; lia].
    destruct (bind_lease_cases self now mac ip (S t))
      as [[Hfloat ->]|[Hfloat ->]].
    + split; [lia|]. right. exists ip, t.
      do 2 (split; [done|]). do 2 (split; [lia|]). done.
    + split; [lia|]. left. auto.
  - split; [lia|]. left. auto.
Qed.

(** Every call of [allocate] either leaves the manager as it was, and
    then an address it returns is the one of the caller's active lease,
    or binds the caller as [binds] says. *)
Lemma allocate_cases (self : LeaseManager) (mac : string)
    (requested_ip : option string) (t : nat) :
  match allocate self mac requested_ip t with
  | (r, self', t') =>
      (t < t')%nat
      /\ ((self' = self
           /\ forall ip_addr, r = Ok (Some ip_addr) ->
                active self (clock t) mac ip_addr)
          \/ binds self (clock t) mac (S t) t' r self')
  end.
Proof.
  assert (match allocate_requested self (clock t) mac requested_ip (S t) with
          | (r, self', t') =>
              (t < t')%nat
              /\ ((self' = self
                   /\ forall ip_addr, r = Ok (Some ip_addr) ->
                        active self (clock t) mac ip_addr)
                  \/ binds self (clock t) mac (S t) t' r self')
          end) as Hreq.
  { pose proof (allocate_requested_cases self (clock t) mac requested_ip (S t)) as H.
    destruct (allocate_requested self (clock t) mac requested_ip (S t))
      as [[r self'] t'].
    destruct H as [Ht [[-> [->|[->|[-> _]]]]|Hb]]; split; try lia; auto;
      left; split; try done. }
  unfold allocate.
  destruct (leases self !! mac) as [[ip expiry]|] eqn:Hmac; [|done].
  destruct (bool_decide (expiry > clock t)) eqn:Hexp; [|done].
  apply bool_decide_eq_true in Hexp.
  split; [lia|]. left. split; [done|].
  intros ip' [= <-]. by exists expiry.
Qed.

(** A call leaves the pool bounds and the lease duration as they are. *)
Lemma allocate_fields (self : LeaseManager) (mac : string)
    (requested_ip : option string) (t : nat) :
  let self' := (allocate self mac requested_ip t).1.2 in
  pool_start self' = pool_start self
  /\ pool_end self' = pool_end self
  /\ lease_time self' = lease_time self.
Proof.
  pose proof (allocate_cases self mac requested_ip t) as H.
  destruct (allocate self mac requested_ip t) as [[r self'] t'].
  cbn [fst snd].
  by destruct H as [_ [[-> _]|(ip & j & _ & -> & _)]].
Qed.

(** A call leaves the entries of the other hardware addresses as they
    are. *)
Lemma allocate_other_entry (self : LeaseManager) (mac mac' : string)
    (requested_ip : option string) (t : nat) :
  mac' <> mac ->
  leases (allocate self mac requested_ip t).1.2 !! mac' = leases self !! mac'.
Proof.
  intros Hne.
  pose proof (allocate_cases self mac requested_ip t) as H.
  destruct (allocate self mac requested_ip t) as [[r self'] t'].
  cbn [fst snd].
  destruct H as [_ [[-> _]|(ip & j & _ & -> & _)]]; [done|].
  cbn [set_lease leases]. by rewrite lookup_insert_ne.
Qed.

(** C10.  A call [allocate(mac, requested_ip)] changes at most the entry
    of [mac]: the lease table without the entry of [mac] is the same
    before and after the call, and so are the pool bounds and the lease
    duration, whatever the arguments and whatever the call returns or
    raises. *)
Theorem allocate_frame (self : LeaseManager) (mac : string)
    (requested_ip : option string) (t : nat) :
  let self' := (allocate self mac requested_ip t).1.2 in
  delete mac (leases self') = delete mac (leases self)
  /\ pool_start self' = pool_start self
  /\ pool_end self' = pool_end self
  /\ lease_time self' = lease_time self.
Proof.
  split; [|apply allocate_fields].
  apply map_eq. intros mac'.
  destruct (decide (mac' = mac)) as [->|Hne].
  - by rewrite !lookup_delete_eq.
  - rewrite !lookup_delete_ne by done. by apply allocate_other_entry.
Qed.

Lemma reachable_fields (pool_start0 pool_end0 lease_time0 : Z)
    (self : LeaseManager) (t : nat) :
  reachable pool_start0 pool_end0 lease_time0 self t ->
  pool_start self = pool_start0 /\ pool_end self = pool_end0
  /\ lease_time self = lease_time0.
Proof.
  induction 1 as [|self t mac requested_ip _ IH]; [done|].
  destruct (allocate_fields self mac requested_ip t) as (-> & -> & ->).
  exact IH.
Qed.

(** An address [allocate] returns is stored for the caller afterwards. *)
Lemma allocate_returns_stored (self : LeaseManager) (mac : string)
    (requested_ip : option string) (t : nat) (ip_addr : Z) :
  (allocate self mac requested_ip t).1.1 = Ok (Some ip_addr) ->
  exists expiry,
    leases (allocate self mac requested_ip t).1.2 !! mac
    = Some (ip_addr, expiry).
Proof.
  pose proof (allocate_cases self mac requested_ip t) as H.
  destruct (allocate self mac requested_ip t) as [[r self'] t'].
  cbn [fst snd]. intros ->.
  destruct H as [_ [[-> Hact]|(ip & j & [= <-] & -> & _)]].
  - destruct (Hact ip_addr eq_refl) as (expiry & Hmac & _). eauto.
  - eexists. cbn [set_lease leases]. apply lookup_insert_eq.
Qed.

(** The stored addresses stay in the pool across a call. *)
Lemma allocate_preserves_in_pool (self : LeaseManager) (mac : string)
    (requested_ip : option string) (t : nat) :
  (forall mac' ip expiry,
     leases self !! mac' = Some (ip, expiry) ->
     pool_start self <= ip <= pool_end self) ->
  forall mac' ip expiry,
    leases (allocate self mac requested_ip t).1.2 !! mac' = Some (ip, expiry) ->
    pool_start self <= ip <= pool_end self.
Proof.
  intros Hin mac' ip expiry.
  pose proof (allocate_cases self mac requested_ip t) as H.
  destruct (allocate self mac requested_ip t) as [[r self'] t'].
  cbn [fst snd].
  destruct H as [_ [[-> _]|(ip' & j & _ & -> & Hpool & _)]]; [apply Hin|].
  cbn [set_lease leases]. rewrite lookup_insert.
  case_decide; [|apply Hin]. by intros [= <- _].
Qed.

(** C9.  In every state reached from the empty table by calls of
    [allocate], every address stored in a lease entry lies in the
    inclusive range of the pool, and so does every address a further call
    returns. *)
Theorem reachable_in_pool (pool_start0 pool_end0 lease_time0 : Z)
    (self : LeaseManager) (t : nat) :
  reachable pool_start0 pool_end0 lease_time0 self t ->
  (forall mac ip expiry,
     leases self !! mac = Some (ip, expiry) -> pool_start0 <= ip <= pool_end0)
  /\ (forall mac requested_ip ip,
        (allocate self mac requested_ip t).1.1 = Ok (Some ip) ->
        pool_start0 <= ip <= pool_end0).
Proof.
  intros Hreach.
  assert (forall mac ip expiry,
            leases self !! mac = Some (ip, expiry) ->
            pool_start0 <= ip <= pool_end0) as Hstored.
  { induction Hreach as [|self t mac requested_ip Hreach IH]; [done|].
    destruct (reachable_fields _ _ _ _ _ Hreach) as (Hs & He & _).
    rewrite <- Hs, <- He in IH |- *. by apply allocate_preserves_in_pool. }
  split; [exact Hstored|].
  intros mac requested_ip ip Hret.
  destruct (allocate_returns_stored _ _ _ _ _ Hret) as (expiry & Hmac).
  destruct (reachable_fields _ _ _ _ _ Hreach) as (Hs & He & _).
  rewrite <- Hs, <- He in Hstored |- *.
  by apply (allocate_preserves_in_pool self mac requested_ip t Hstored mac ip expiry).
Qed.

Lemma current_time_le (t t' : nat) (now : Z) :
  (t <= t')%nat -> current_time t' now -> current_time t now.
Proof. intros Hle Hnow k Hk. apply Hnow. lia. Qed.

(** A lease that is active now was active at every earlier time. *)
Lemma active_earlier (self : LeaseManager) (now now' : Z) (mac : string)
    (ip_addr : Z) :
  now' <= now -> active self now mac ip_addr -> active self now' mac ip_addr.
Proof. intros Hle (expiry & Hmac & Hexp). exists expiry. split; [done|lia]. Qed.

Lemma active_set_lease (self : LeaseManager) (now : Z) (mac mac' : string)
    (ip_addr ip_addr' expiry : Z) :
  active (set_lease self mac ip_addr expiry) now mac' ip_addr' ->
  (mac' = mac /\ ip_addr' = ip_addr) \/ (mac' <> mac /\ active self now mac' ip_addr').
Proof.
  intros (expiry' & Hmac & Hexp). cbn [set_lease leases] in Hmac.
  rewrite lookup_insert in Hmac. case_decide as Heq.
  - left. injection Hmac as <- _. done.
  - right. split; [done|]. by exists expiry'.
Qed.

(** Each call of [allocate] keeps the invariant: when no address has two
    active holders at any current time before the call, none has at any
    current time after it. *)
Lemma allocate_preserves_one_holder (self : LeaseManager) (mac : string)
    (requested_ip : option string) (t : nat) :
  (forall now, current_time t now -> one_holder self now) ->
  forall now,
    current_time (allocate self mac requested_ip t).2 now ->
    one_holder (allocate self mac requested_ip t).1.2 now.
Proof.
  intros Hinv now.
  pose proof (allocate_cases self mac requested_ip t) as H.
  destruct (allocate self mac requested_ip t) as [[r self'] t'].
  cbn [fst snd]. intros Hnow.
  destruct H as [Ht [[-> _]|(ip & j & _ & -> & _ & Hj & Hfree & _)]].
  - apply Hinv. apply (current_time_le t t'); [lia|done].
  - assert (forall mac', ~ active self now mac' ip) as Hnone.
    { intros mac' Hact.
      apply (proj1 (is_available_true self ip j) Hfree mac').
      apply (active_earlier self now); [apply Hnow; lia|done]. }
    intros mac1 mac2 ip0 [[-> ->]|[Hne1 Hact1]]%active_set_lease
                         [[-> Hip]|[Hne2 Hact2]]%active_set_lease.
    + done.
    + by destruct (Hnone mac2).
    + subst ip0. by destruct (Hnone mac1).
    + apply (Hinv now (current_time_le t t' now ltac:(lia) Hnow) mac1 mac2 ip0);
        done.
Qed.

(** C1.  In every state reached from the empty table by calls of
    [allocate], at every current time, that is at every time not before
    any clock reading the process has made, at most one hardware address
    holds an active lease (an entry whose expiry is greater than that
    time) on any given address. *)
Theorem reachable_one_holder (pool_start0 pool_end0 lease_time0 : Z)
    (self : LeaseManager) (t : nat) :
  reachable pool_start0 pool_end0 lease_time0 self t ->
  forall now, current_time t now -> one_holder self now.
Proof.
  induction 1 as [|self t mac requested_ip _ IH].
  - intros now _ mac1 mac2 ip (expiry & Hmac & _). done.
  - by apply allocate_preserves_one_holder.
Qed.

Lemma allocate_active (self : LeaseManager) (mac : string) (ip expiry : Z)
    (requested_ip : option string) (t : nat) :
  leases self !! mac = Some (ip, expiry) -> expiry > clock t ->
  allocate self mac requested_ip t = (Ok (Some ip), self, S t).
Proof.
  intros Hmac Hexp. unfold allocate. rewrite Hmac.
  by rewrite bool_decide_eq_true_2.
Qed.

Lemma allocate_inactive (self : LeaseManager) (mac : string)
    (requested_ip : option string) (t : nat) :
  no_active_lease self (clock t) mac ->
  allocate self mac requested_ip t
  = allocate_requested self (clock t) mac requested_ip (S t).
Proof.
  intros Hno. unfold allocate.
  destruct (leases self !! mac) as [[ip expiry]|] eqn:Hmac; [|done].
  rewrite bool_decide_eq_false_2; [done|].
  intros Hexp. apply (Hno ip). by exists expiry.
Qed.

(** C2.  When [mac] has an entry whose expiry is after the reading the
    call makes, [allocate(mac, requested_ip)] returns the address of the
    entry and leaves the manager as it was, whatever [requested_ip] is: the
    expiry is not extended.  So two calls [allocate(mac, None)] in a row,
    both before the expiry, return that same address. *)
Theorem allocate_active_lease (self : LeaseManager) (mac : string)
    (ip expiry : Z) (requested_ip : option string) (t : nat) :
  leases self !! mac = Some (ip, expiry) ->
  expiry > clock t ->
  allocate self mac requested_ip t = (Ok (Some ip), self, S t)
  /\ (expiry > clock (S t) ->
      let '(first, self1, t1) := allocate self mac None t in
      let '(second, self2, t2) := allocate self1 mac None t1 in
      first = Ok (Some ip) /\ second = Ok (Some ip) /\ self2 = self).
Proof.
  intros Hmac Hexp. split; [by apply (allocate_active self mac ip expiry)|].
  intros Hexp'.
  rewrite (allocate_active self mac ip expiry None t) by done.
  rewrite (allocate_active self mac ip expiry None (S t)) by done.
  done.
Qed.


(** A requested address that [ipaddress.ip_address] rejects with a
    [ValueError] is treated as no request. *)
Lemma allocate_unparsable (self : LeaseManager) (mac : string)
    (requested_ip : string) (t : nat) :
  ip_address requested_ip = None ->
  allocate self mac (Some requested_ip) t = allocate self mac None t.
Proof.
  intros Hparse. unfold allocate, allocate_requested.
  destruct requested_ip; [done|]. by rewrite Hparse.
Qed.

(** A requested IPv4 address outside the pool bounds is treated as no
    request. *)
Lemma allocate_out_of_pool (self : LeaseManager) (mac : string)
    (requested_ip : string) (ip : Z) (t : nat) :
  ip_address requested_ip = Some (IPv4Address ip) ->
  ~ pool_start self <= ip <= pool_end self ->
  allocate self mac (Some requested_ip) t = allocate self mac None t.
Proof.
  intros Hparse Hout. unfold allocate.
  rewrite (allocate_requested_IPv4 _ _ _ _ ip) by done.
  assert (bool_decide (pool_start self <= ip)
          && bool_decide (ip <= pool_end self) = false) as ->; [|done].
  apply andb_false_iff.
  destruct (decide (pool_start self <= ip));
    [right|left]; apply bool_decide_eq_false_2; lia.
Qed.

(** A requested address, not the empty string, that reads as an IPv6
    address makes the call raise [TypeError] when the caller has no active
    lease. *)
Lemma allocate_IPv6 (self : LeaseManager) (mac : string)
    (requested_ip : string) (ip : Z) (t : nat) :
  no_active_lease self (clock t) mac ->
  requested_ip <> EmptyString ->
  ip_address requested_ip = Some (IPv6Address ip) ->
  allocate self mac (Some requested_ip) t = (Raise TypeError, self, S t).
Proof.
  intros Hno Hne Hparse. rewrite allocate_inactive by done.
  unfold allocate_requested. destruct requested_ip as [|c s]; [done|].
  by rewrite Hparse.
Qed.

(** ** Exhaustion of the pool *)

Lemma readings_before_mono (m n : nat) :
  (m <= n)%nat -> (readings_before m <= readings_before n)%nat.
Proof. induction 1; simpl; lia. Qed.

Lemma iter_pool_lookup (self : LeaseManager) (k : nat) (ip : Z) :
  _iter_pool self !! k = Some ip <->
  ip = pool_start self + Z.of_nat k
  /\ Z.of_nat k < pool_end self - pool_start self + 1.
Proof. unfold _iter_pool. apply lookup_seqZ. Qed.

Section Exhaustion.

Variables (self : LeaseManager) (t t' : nat).
Hypothesis Hwindow : before_expiry t t' (lease_time self).
Hypothesis Hfloat : float_range (lease_time self).

(** In a state where [served] were served in order, the pool address of
    rank [k] is taken while the window lasts, for every [k] below the
    number served... *)
Lemma served_unavailable (self' : LeaseManager) (served : list string)
    (k j : nat) :
  served_in_order self self' t served ->
  (k < length served)%nat ->
  (t + readings_before k < t')%nat -> (t <= j < t')%nat ->
  (_is_available self' (pool_start self + Z.of_nat k) j).1 = false.
Proof.
  intros (_ & _ & _ & Hheld & _) Hk Hgrant Hj.
  destruct (lookup_lt_is_Some_2 served k Hk) as [mac Hmac].
  apply is_available_false. exists mac. eexists. split; [by apply Hheld|].
  apply Z.lt_gt, Hwindow; lia.
Qed.

(** ... and the address of rank [length served] is free. *)
Lemma served_next_available (self' : LeaseManager) (served : list string)
    (j : nat) :
  served_in_order self self' t served ->
  (_is_available self' (pool_start self + Z.of_nat (length served)) j).1 = true.
Proof.
  intros (_ & _ & _ & Hheld & Hothers).
  apply is_available_true. intros mac (expiry & Hmac & _).
  destruct (decide (mac ∈ served)) as [Hin|Hout].
  - apply list_elem_of_lookup in Hin as [k Hk].
    pose proof (lookup_lt_Some _ _ _ Hk) as Hlt.
    rewrite (Hheld k mac Hk) in Hmac. injection Hmac as Hip _. lia.
  - by rewrite (Hothers mac Hout) in Hmac.
Qed.

(** The call that follows, from a hardware address not served yet, gets
    the next address of the pool. *)
Lemma served_next (self' : LeaseManager) (served : list string) (mac : string) :
  served_in_order self self' t served ->
  mac ∉ served ->
  Z.of_nat (length served) < pool_end self - pool_start self + 1 ->
  (t + readings_before (S (length served)) <= t')%nat ->
  allocate self' mac None (t + readings_before (length served))
  = (Ok (Some (pool_start self + Z.of_nat (length served))),
     set_lease self' mac (pool_start self + Z.of_nat (length served))
       (clock (t + readings_before (length served)) + lease_time self),
     (t + readings_before (S (length served)))%nat).
Proof.
  intros Hserved Hmac Hroom Hend.
  pose proof Hserved as (Hs & He & Hl & Hheld & Hothers).
  set (n := length served) in *. set (tn := (t + readings_before n)%nat).
  cbn [readings_before] in Hend.
  rewrite allocate_inactive.
  2:{ intros ip (expiry & Hlook & _). by rewrite (Hothers mac Hmac) in Hlook. }
  cbn [allocate_requested]. unfold allocate_scan.
  assert (forall k j, (k < n)%nat -> (t <= j < t')%nat ->
            (_is_available self' (pool_start self + Z.of_nat k) j).1 = false)
    as Htaken.
  { intros k j Hk Hj. apply (served_unavailable self' served); try done.
    pose proof (readings_before_mono k n ltac:(lia)). lia. }
  pose proof (fun j => served_next_available self' served j Hserved) as Hfree.
  fold n in Hfree.
  destruct (scan_pool_cases self' (clock tn) mac (_iter_pool self') (S tn))
    as [[_ Hnone]|(i & ip & Hi & -> & Hav & Hbefore)].
  - specialize (Hnone n (pool_start self + Z.of_nat n)).
    rewrite Hfree in Hnone. discriminate Hnone.
    apply iter_pool_lookup. rewrite Hs, He. done.
  - apply iter_pool_lookup in Hi as [-> Hi]. rewrite Hs in *.
    destruct (lt_eq_lt_dec i n) as [[Hlt| ->]|Hgt].
    + rewrite Htaken in Hav; [done|lia|lia].
    + rewrite bind_lease_ok by (by rewrite Hl).
      rewrite Hl. do 2 f_equal. unfold tn. cbn [readings_before]. lia.
    + specialize (Hbefore n (pool_start self + Z.of_nat n) Hgt).
      rewrite Hfree in Hbefore. discriminate Hbefore.
      apply iter_pool_lookup. rewrite Hs, He. done.
Qed.

(** Serving one more keeps the description of the state. *)
Lemma served_in_order_snoc (self' : LeaseManager) (served : list string)
    (mac : string) :
  served_in_order self self' t served ->
  mac ∉ served ->
  served_in_order self
    (set_lease self' mac (pool_start self + Z.of_nat (length served))
       (clock (t + readings_before (length served)) + lease_time self))
    t (served ++ [mac]).
Proof.
  intros (Hs & He & Hl & Hheld & Hothers) Hmac.
  repeat split; try done; cbn [set_lease leases].
  - intros k mac' Hk. rewrite lookup_insert. case_decide as Heq.
    + subst mac'. apply lookup_app_Some in Hk as [Hk|[Hge Hk]].
      * destruct Hmac. by apply list_elem_of_lookup_2 in Hk.
      * apply list_lookup_singleton_Some in Hk as [Hk _].
        by replace k with (length served) by lia.
    + apply lookup_app_Some in Hk as [Hk|[_ Hk]]; [by apply Hheld|].
      apply list_lookup_singleton_Some in Hk as [_ ->]. done.
  - intros mac' Hout. rewrite not_elem_of_app, list_elem_of_singleton in Hout.
    destruct Hout as [Hout Hne].
    rewrite lookup_insert_ne by done. by apply Hothers.
Qed.

(** With every address of the pool taken, a call from a hardware address
    that was not served finds nothing and changes nothing. *)
Lemma served_full (self' : LeaseManager) (served : list string) (mac : string) :
  served_in_order self self' t served ->
  mac ∉ served ->
  Z.of_nat (length served) = pool_end self - pool_start self + 1 ->
  (t + readings_before (length served) + length served + 1 <= t')%nat ->
  allocate self' mac None (t + readings_before (length served))
  = (Ok None, self',
     (t + readings_before (length served) + length served + 1)%nat).
Proof.
  intros Hserved Hmac Hfull Hend.
  pose proof Hserved as (Hs & He & Hl & Hheld & Hothers).
  set (n := length served) in *. set (tn := (t + readings_before n)%nat) in *.
  rewrite allocate_inactive.
  2:{ intros ip (expiry & Hlook & _). by rewrite (Hothers mac Hmac) in Hlook. }
  cbn [allocate_requested]. unfold allocate_scan.
  destruct (scan_pool_cases self' (clock tn) mac (_iter_pool self') (S tn))
    as [[-> _]|(i & ip & Hi & _ & Hav & _)].
  - f_equal. unfold _iter_pool. rewrite length_seqZ, Hs, He. lia.
  - apply iter_pool_lookup in Hi as [-> Hi]. rewrite Hs, He in *.
    rewrite (served_unavailable self' served) in Hav; try done; try lia.
    pose proof (readings_before_mono i n ltac:(lia)). lia.
Qed.

(** The calls of a run are served in order, one pool address after the
    other. *)
Lemma served_run (rest served : list string) (self' : LeaseManager) :
  served_in_order self self' t served ->
  NoDup (served ++ rest) ->
  Z.of_nat (length served + length rest) <= pool_end self - pool_start self + 1 ->
  (t + readings_before (length served + length rest) <= t')%nat ->
  exists self'',
    allocate_all self' rest (t + readings_before (length served))
    = ((fun ip => Ok (Some ip))
         <$> seqZ (pool_start self + Z.of_nat (length served))
               (Z.of_nat (length rest)),
       self'',
       (t + readings_before (length served + length rest))%nat)
    /\ served_in_order self self'' t (served ++ rest).
Proof.
  revert served self'.
  induction rest as [|mac rest IH]; intros served self' Hserved Hnodup Hroom Hend.
  - exists self'. rewrite Nat.add_0_r, app_nil_r. done.
  - cbn [length] in Hroom, Hend.
    assert (mac ∉ served) as Hmac.
    { apply NoDup_app in Hnodup as (_ & Hdisj & _).
      intros Hin. apply (Hdisj mac Hin). apply list_elem_of_here. }
    pose proof (readings_before_mono (S (length served))
                  (length served + S (length rest)) ltac:(lia)) as Hmono.
    cbn [allocate_all]. rewrite served_next; try done; try lia.
    destruct (IH (served ++ [mac])
                (set_lease self' mac (pool_start self + Z.of_nat (length served))
                   (clock (t + readings_before (length served))
                    + lease_time self)))
      as (self'' & Hrun & Hfinal).
    + by apply served_in_order_snoc.
    + by rewrite <- app_assoc.
    + rewrite length_app. simpl. lia.
    + rewrite length_app. simpl.
      by replace (length served + 1 + length rest)%nat
        with (length served + S (length rest))%nat by lia.
    + rewrite length_app in Hrun. cbn [length] in Hrun.
      replace (length served + 1)%nat with (S (length served)) in Hrun by lia.
      rewrite Hrun. exists self''. split.
      * cbn [length].
        rewrite (seqZ_cons _ (Z.of_nat (S (length rest)))) by lia.
        cbn [fmap list_fmap].
        replace (Z.succ (pool_start self + Z.of_nat (length served)))
          with (pool_start self + Z.of_nat (S (length served))) by lia.
        replace (Z.pred (Z.of_nat (S (length rest))))
          with (Z.of_nat (length rest)) by lia.
        by replace (S (length served) + length rest)%nat
          with (length served + S (length rest))%nat by lia.
      * by rewrite <- app_assoc in Hfinal.
Qed.

End Exhaustion.

Lemma allocate_all_app (self : LeaseManager) (macs macs' : list string)
    (t : nat) :
  allocate_all self (macs ++ macs') t =
  let '(found, self, t) := allocate_all self macs t in
  let '(found', self, t) := allocate_all self macs' t in
  (found ++ found', self, t).
Proof.
  revert self t. induction macs as [|mac macs IH]; intros self t.
  - simpl. by destruct (allocate_all self macs' t) as [[found' self'] t'].
  - cbn [app allocate_all].
    destruct (allocate self mac None t) as [[r self1] t1].
    rewrite IH.
    destruct (allocate_all self1 macs t1) as [[found self2] t2].
    by destruct (allocate_all self2 macs' t2) as [[found' self3] t3].
Qed.


(** ** The message dispatcher *)

(** A REQUEST whose option 50 is neither empty nor four bytes long ends
    the process: [socket.inet_ntoa] raises [OSError] before [allocate] is
    called, and nothing catches it. *)
Lemma handle_request_bad_address (cfg : config) (lease_manager : LeaseManager)
    (data requested : bytes) (t : nat) :
  (240 <= length data)%nat ->
  slice 236 240 data = MAGIC_COOKIE ->
  parse_options (drop 240 data) !! 53 = Some [byte_of_Z DHCPREQUEST] ->
  parse_options (drop 240 data) !! 50 = Some requested ->
  requested <> [] -> length requested <> 4%nat ->
  handle_datagram cfg lease_manager data t = (Raise OSError, lease_manager, t).
Proof.
  intros Hlen Hcookie Htype Hreq Hne Hlen4. unfold handle_datagram.
  case_decide; [lia|]. case_decide; [done|].
  rewrite Htype, Hreq. cbn [default].
  change (byte_of_Z DHCPREQUEST) with x03.
  change (byte_of_Z DHCPDISCOVER) with x01.
  case_decide; [done|]. case_decide; [|done].
  destruct requested as [|b requested]; [done|].
  unfold inet_ntoa. by case_decide.
Qed.

(** C7, at the input on which the program departs from it.  The REQUEST
    datagram [request_short_address] carries a requested address that is
    not a valid IPv4 address (three bytes).  It is not treated as a request
    without an address: the iteration raises [OSError], no address is
    allocated and no reply is built. *)
Theorem request_short_address_raises (cfg : config)
    (lease_manager : LeaseManager) (t : nat) :
  handle_datagram cfg lease_manager request_short_address t
  = (Raise OSError, lease_manager, t).
Proof.
  apply (handle_request_bad_address _ _ _ [x0a; x00; x00]).
  - vm_compute. lia.
  - reflexivity.
  - by vm_compute.
  - by vm_compute.
  - discriminate.
  - discriminate.
Qed.

(** C8, at the input on which the program departs from it.  In
    [options_cut_in_value] the buffer ends before the four value bytes
    that option 50 announces.  The option that is cut is recorded all the
    same, with the three bytes that are there. *)
Theorem parse_options_cut_in_value_entry :
  parse_options options_cut_in_value
  = <[50 := [x0a; x00; x00]]> {[53 := [x03]]}.
Proof. by vm_compute. Qed.


(** * Further properties of the program *)

(** ** The option codec *)

Lemma parse_loop_bounds (fuel : nat) (raw : bytes) (idx : nat)
    (options : gmap Z bytes) :
  map_Forall (fun code value => 1 <= code <= 254 /\ (length value <= 255)%nat)
    options ->
  map_Forall (fun code value => 1 <= code <= 254 /\ (length value <= 255)%nat)
    (parse_loop fuel raw idx options).
Proof.
  revert idx options. induction fuel as [|fuel IH]; intros idx options Hall.
  - exact Hall.
  - rewrite parse_loop_unfold.
    destruct (raw !! idx) as [code|]; [|exact Hall].
    case_decide as H255; [exact Hall|].
    case_decide as H0; [by apply IH|].
    destruct (raw !! S idx) as [len|]; [|exact Hall].
    apply IH. apply map_Forall_insert_2; [|exact Hall].
    pose proof (byte_to_Z_range code). pose proof (byte_to_Z_range len).
    split; [lia|]. unfold slice. rewrite length_take. lia.
Qed.

(** X1.  Whatever the bytes, every entry [parse_options] returns has a
    code between 1 and 254, never the padding code 0 nor the terminator
    255, and a value of at most 255 bytes. *)
Theorem parse_options_entry_bounds (raw : bytes) (code : Z) (value : bytes) :
  parse_options raw !! code = Some value ->
  1 <= code <= 254 /\ (length value <= 255)%nat.
Proof.
  intros Hentry.
  apply (parse_loop_bounds (length raw) raw 0 ∅ (map_Forall_empty _) code value).
  exact Hentry.
Qed.

Lemma parse_from_pad (pre rest : bytes) (options : gmap Z bytes) :
  parse_from (pre ++ x00 :: rest) (length pre) options
  = parse_from (pre ++ x00 :: rest) (S (length pre)) options.
Proof.
  unfold parse_from at 1. rewrite length_app. simpl.
  replace (length pre + S (length rest) - length pre)%nat
    with (S (length rest)) by lia.
  rewrite parse_loop_unfold, list_lookup_middle by done.
  case_decide; [done|]. case_decide; [|done].
  apply parse_loop_from. rewrite length_app. simpl. lia.
Qed.

Lemma parse_from_padding (n : nat) (pre rest : bytes) (options : gmap Z bytes) :
  parse_from (pre ++ replicate n x00 ++ rest) (length pre) options
  = parse_from (pre ++ replicate n x00 ++ rest) (length pre + n) options.
Proof.
  revert pre. induction n as [|n IH]; intros pre.
  - by rewrite Nat.add_0_r.
  - cbn [replicate app]. rewrite parse_from_pad.
    replace (pre ++ x00 :: replicate n x00 ++ rest)
      with ((pre ++ [x00]) ++ replicate n x00 ++ rest)
      by (by rewrite <- app_assoc).
    specialize (IH (pre ++ [x00])). rewrite length_app in IH. simpl in IH.
    replace (length pre + 1)%nat with (S (length pre)) in IH by lia.
    rewrite IH. f_equal. lia.
Qed.

Lemma encodable_app (options options' : list (Z * option bytes)) :
  encodable options -> encodable options' -> encodable (options ++ options').
Proof. apply Forall_app_2. Qed.

(** X2.  Padding bytes between complete options are skipped and the
    terminator ends the scan: options, then any number of zero bytes, then
    more options, then 255 and any bytes at all, parse to the entries of
    the two option lists in order. *)
Theorem parse_options_padding_terminator
    (options options' : list (Z * option bytes)) (n : nat) (rest : bytes) :
  encodable options -> encodable options' ->
  parse_options (encode options ++ replicate n x00 ++ encode options'
                 ++ xff :: rest)
  = option_entries (options ++ options').
Proof.
  intros Henc Henc'. rewrite parse_options_from.
  rewrite (parse_from_encode options Henc []
             (replicate n x00 ++ encode options' ++ xff :: rest) ∅).
  cbn [app].
  rewrite (parse_from_padding n (encode options)
             (encode options' ++ xff :: rest)).
  replace (encode options ++ replicate n x00 ++ encode options' ++ xff :: rest)
    with ((encode options ++ replicate n x00) ++ encode options' ++ xff :: rest)
    by (by rewrite <- app_assoc).
  replace (length (encode options) + n)%nat
    with (length (encode options ++ replicate n x00))
    by (by rewrite length_app, length_replicate).
  rewrite (parse_from_encode options' Henc').
  replace ((encode options ++ replicate n x00) ++ encode options' ++ xff :: rest)
    with (((encode options ++ replicate n x00) ++ encode options') ++ xff :: rest)
    by (by rewrite <- app_assoc).
  rewrite parse_from_terminator.
  unfold option_entries, add_entries. by rewrite fold_left_app.
Qed.

(** The loop of [build_options] succeeds exactly on the lists whose
    entries fit. *)
Lemma build_parts_cases (options : list (Z * option bytes)) :
  (~ Forall fits_BB options -> build_parts options = Raise struct_error)
  /\ (Forall fits_BB options ->
      exists parts, build_parts options = Ok parts
                    /\ concat parts = encode options ++ [xff]).
Proof.
  induction options as [|[code [value|]] options [IHr IHo]].
  - split; [intros []; constructor|]. intros _. by exists [[xff]].
  - cbn [build_parts]. unfold pack_B. split.
    + intros Hnot.
      case_decide as Hcode; [|done].
      case_decide as Hlen; [|done]. cbn [rbind].
      rewrite IHr; [done|]. intros Hall. apply Hnot.
      apply Forall_cons. split; [|done]. unfold fits_BB. simpl. lia.
    + intros [Hfit Hall]%Forall_cons. unfold fits_BB in Hfit. simpl in Hfit.
      destruct (IHo Hall) as (parts & -> & Hconcat).
      do 2 (case_decide; [|lia]). eexists. split; [done|].
      simpl. rewrite Hconcat. by rewrite <- app_assoc.
  - cbn [build_parts encode]. split.
    + intros Hnot. apply IHr. intros Hall. apply Hnot.
      by apply Forall_cons.
    + intros [_ Hall]%Forall_cons. by apply IHo.
Qed.

Lemma build_options_ok_inv (options : list (Z * option bytes)) (raw : bytes) :
  build_options options = Ok raw ->
  Forall fits_BB options /\ raw = encode options ++ [xff].
Proof.
  unfold build_options. destruct (build_parts_cases options) as [Hraise Hok].
  destruct (decide (Forall fits_BB options)) as [Hall|Hnot].
  - destruct (Hok Hall) as (parts & -> & <-). by intros [= <-].
  - by rewrite (Hraise Hnot).
Qed.

Lemma build_options_raise_inv (options : list (Z * option bytes)) (e : exn) :
  build_options options = Raise e -> e = struct_error.
Proof.
  unfold build_options. destruct (build_parts_cases options) as [Hraise Hok].
  destruct (decide (Forall fits_BB options)) as [Hall|Hnot].
  - by destruct (Hok Hall) as (parts & -> & _).
  - rewrite (Hraise Hnot). by intros [= <-].
Qed.

(** X3.  [build_options] returns the options that have a value, each as
    code, length and value, in order and followed by 255, when the code
    and the length of every such option fit a byte; otherwise it raises
    [struct.error]. *)
Theorem build_options_result (options : list (Z * option bytes)) :
  build_options options =
  if decide (Forall fits_BB options) then Ok (encode options ++ [xff])
  else Raise struct_error.
Proof.
  unfold build_options. destruct (build_parts_cases options) as [Hraise Hok].
  case_decide as Hall.
  - destruct (Hok Hall) as (parts & -> & <-). done.
  - by rewrite (Hraise Hall).
Qed.

(** X4.  A buffer cut after complete options is parsed without error.
    Cut where a length byte is due, it gives the options before the cut
    and nothing for the option that was begun.  Cut inside a value, it
    gives in addition the option that was begun, with the value bytes that
    are there. *)
Theorem parse_options_truncated (options : list (Z * option bytes))
    (code len : byte) (value : bytes) :
  encodable options ->
  byte_to_Z code <> 255 -> byte_to_Z code <> 0 ->
  (length value < Z.to_nat (byte_to_Z len))%nat ->
  parse_options (encode options ++ [code]) = option_entries options
  /\ parse_options (encode options ++ code :: len :: value)
     = <[byte_to_Z code := value]> (option_entries options).
Proof.
  intros Henc H255 H0 Hshort. split.
  - by apply parse_options_cut_at_length.
  - by apply parse_options_cut_in_value.
Qed.

(** ** Hardware addresses as text *)

Lemma hex_char_nat (d : Z) :
  0 <= d < 16 ->
  Z.of_nat (nat_of_ascii (hex_char d)) = if decide (d < 10) then 48 + d else 87 + d.
Proof.
  intros Hd. unfold hex_char. case_decide; rewrite nat_ascii_embedding; lia.
Qed.

Lemma hex_char_inj (d d' : Z) :
  0 <= d < 16 -> 0 <= d' < 16 -> hex_char d = hex_char d' -> d = d'.
Proof.
  intros Hd Hd' Heq.
  pose proof (hex_char_nat d Hd) as H. pose proof (hex_char_nat d' Hd') as H'.
  rewrite Heq in H. rewrite H in H'. repeat case_decide; lia.
Qed.

Lemma format_02x_inj (b b' : byte) : format_02x b = format_02x b' -> b = b'.
Proof.
  unfold format_02x. intros [= Hhi Hlo].
  pose proof (byte_to_Z_range b). pose proof (byte_to_Z_range b').
  apply hex_char_inj in Hhi;
    [|split; [apply Z.div_pos|apply Z.div_lt_upper_bound]; lia..].
  apply hex_char_inj in Hlo; [|apply Z.mod_pos_bound; lia..].
  rewrite <- (byte_of_to_Z b), <- (byte_of_to_Z b'). f_equal.
  rewrite (Z.div_mod (byte_to_Z b) 16), (Z.div_mod (byte_to_Z b') 16) by lia.
  by rewrite Hhi, Hlo.
Qed.

Lemma mac_to_str_cons (b b' : byte) (mac_bytes : bytes) :
  _mac_to_str (b :: b' :: mac_bytes)
  = String (hex_char (byte_to_Z b / 16))
      (String (hex_char (byte_to_Z b mod 16))
         (String ":" (_mac_to_str (b' :: mac_bytes)))).
Proof. reflexivity. Qed.

Lemma mac_to_str_one (b : byte) :
  _mac_to_str [b]
  = String (hex_char (byte_to_Z b / 16))
      (String (hex_char (byte_to_Z b mod 16)) EmptyString).
Proof. reflexivity. Qed.

(** X5.  [_mac_to_str] is injective: two byte strings with the same text
    are equal, so distinct hardware addresses never share a key of the
    lease table. *)
Theorem mac_to_str_inj (mac_bytes mac_bytes' : bytes) :
  _mac_to_str mac_bytes = _mac_to_str mac_bytes' -> mac_bytes = mac_bytes'.
Proof.
  revert mac_bytes'.
  induction mac_bytes as [|b mac_bytes IH]; intros [|b' mac_bytes'].
  - done.
  - destruct mac_bytes';
      [rewrite mac_to_str_one|rewrite mac_to_str_cons]; discriminate.
  - destruct mac_bytes;
      [rewrite mac_to_str_one|rewrite mac_to_str_cons]; discriminate.
  - destruct mac_bytes as [|b2 mac_bytes], mac_bytes' as [|b2' mac_bytes'];
      rewrite ?mac_to_str_one, ?mac_to_str_cons.
    + intros Heq. by apply format_02x_inj in Heq as ->.
    + discriminate.
    + discriminate.
    + intros [= Hhi Hlo Hrest]. apply IH in Hrest as <-.
      assert (format_02x b = format_02x b') as ->%format_02x_inj; [|done].
      unfold format_02x. by rewrite Hhi, Hlo.
Qed.

(** X6.  The text of [n] bytes has two hexadecimal digits for each byte
    and a colon between two bytes: [3 * n - 1] characters, none for no
    byte. *)
Theorem mac_to_str_length (mac_bytes : bytes) :
  String.length (_mac_to_str mac_bytes) = (3 * length mac_bytes - 1)%nat.
Proof.
  induction mac_bytes as [|b mac_bytes IH]; [done|].
  destruct mac_bytes as [|b2 mac_bytes]; [done|].
  rewrite mac_to_str_cons. cbn [String.length]. rewrite IH.
  cbn [length]. lia.
Qed.

(** ** The lease pool *)

(** X7.  A requested address that [ipaddress.ip_address] rejects, or that
    reads as an IPv4 address outside the pool bounds, is ignored: the call
    does what the same call without a requested address does. *)
Theorem allocate_ignores_bad_request (self : LeaseManager) (mac : string)
    (requested_ip : string) (t : nat) :
  ip_address requested_ip = None
  \/ (exists ip, ip_address requested_ip = Some (IPv4Address ip)
                 /\ ~ pool_start self <= ip <= pool_end self) ->
  allocate self mac (Some requested_ip) t = allocate self mac None t.
Proof.
  intros [Hnone|(ip & Hip & Hout)].
  - by apply allocate_unparsable.
  - by apply (allocate_out_of_pool self mac requested_ip ip).
Qed.

Lemma bind_lease_reads (self : LeaseManager) (now : Z) (mac : string)
    (ip_addr : Z) (t : nat) :
  (bind_lease self now mac ip_addr t).2 = t.
Proof. unfold bind_lease. by destruct (lease_expiry now (lease_time self)). Qed.

Lemma bind_lease_not_none (self : LeaseManager) (now : Z) (mac : string)
    (ip_addr : Z) (t : nat) (self' : LeaseManager) (t' : nat) :
  bind_lease self now mac ip_addr t <> (Ok None, self', t').
Proof.
  unfold bind_lease. by destruct (lease_expiry now (lease_time self)).
Qed.

Lemma bind_lease_raise_inv (self : LeaseManager) (now : Z) (mac : string)
    (ip_addr : Z) (t : nat) (e : exn) :
  (bind_lease self now mac ip_addr t).1.1 = Raise e ->
  e = OverflowError /\ ~ float_range (lease_time self).
Proof.
  destruct (bind_lease_cases self now mac ip_addr t) as [[_ ->]|[Hfloat ->]];
    [done|].
  by intros [= <-].
Qed.

Lemma allocate_scan_raise_inv (self : LeaseManager) (now : Z) (mac : string)
    (t : nat) (e : exn) :
  (allocate_scan self now mac t).1.1 = Raise e ->
  e = OverflowError /\ ~ float_range (lease_time self).
Proof.
  unfold allocate_scan.
  destruct (scan_pool_cases self now mac (_iter_pool self) t)
    as [[-> _]|(i & ip & _ & -> & _)]; [done|].
  apply bind_lease_raise_inv.
Qed.

(** What a raising call of [allocate] was given. *)
Lemma allocate_raise_inv (self : LeaseManager) (mac : string)
    (requested_ip : option string) (t : nat) (e : exn) :
  (allocate self mac requested_ip t).1.1 = Raise e ->
  no_active_lease self (clock t) mac
  /\ ((e = TypeError
       /\ exists s ip,
            requested_ip = Some s /\ s <> EmptyString
            /\ ip_address s = Some (IPv6Address ip))
      \/ (e = OverflowError /\ ~ float_range (lease_time self))).
Proof.
  unfold allocate.
  assert ((allocate_requested self (clock t) mac requested_ip (S t)).1.1
          = Raise e ->
          (e = TypeError
           /\ exists s ip,
                requested_ip = Some s /\ s <> EmptyString
                /\ ip_address s = Some (IPv6Address ip))
          \/ (e = OverflowError /\ ~ float_range (lease_time self))) as Hreq.
  { pose proof (allocate_scan_raise_inv self (clock t) mac (S t) e) as Hscan.
    pose proof (allocate_scan_raise_inv self (clock t) mac (S (S t)) e)
      as Hscan'.
    destruct requested_ip as [s|]; [|cbn; auto].
    destruct (ip_address s) as [[ip|ip]|] eqn:Hip.
    - rewrite (allocate_requested_IPv4 _ _ _ _ ip) by done.
      destruct (_ && _); [|auto].
      destruct (_is_available self ip (S t)).1; [|auto].
      intros H%bind_lease_raise_inv. auto.
    - unfold allocate_requested.
      destruct s as [|c s]; [auto|]. rewrite Hip.
      intros [= <-]. left. split; [done|]. by exists (String c s), ip.
    - unfold allocate_requested.
      destruct s as [|c s]; [auto|]. rewrite Hip. auto. }
  destruct (leases self !! mac) as [[ip expiry]|] eqn:Hmac.
  - destruct (bool_decide (expiry > clock t)) eqn:Hexp; [done|].
    apply bool_decide_eq_false in Hexp.
    intros Hwhy%Hreq. split; [|done].
    intros ip' (expiry' & Hmac' & Hexp'). rewrite Hmac in Hmac'.
    injection Hmac' as <- <-. done.
  - intros Hwhy%Hreq. split; [|done].
    intros ip' (expiry' & Hmac' & _). by rewrite Hmac in Hmac'.
Qed.

(** X8.  The only exceptions [allocate] raises are [TypeError] and
    [OverflowError].  It raises [TypeError] exactly when the caller has no
    active lease and the requested address is a non-empty text that reads
    as an IPv6 address.  It raises [OverflowError] only when the caller
    has no active lease and the lease duration is outside the float range,
    and then no call of a caller without an active lease returns an
    address.  A call that raises leaves the manager as it was. *)
Theorem allocate_raises_iff (self : LeaseManager) (mac : string)
    (requested_ip : option string) (t : nat) :
  ((allocate self mac requested_ip t).1.1 = Raise TypeError <->
   no_active_lease self (clock t) mac
   /\ exists s ip,
        requested_ip = Some s /\ s <> EmptyString
        /\ ip_address s = Some (IPv6Address ip))
  /\ (forall e,
        (allocate self mac requested_ip t).1.1 = Raise e ->
        (e = TypeError
         \/ (e = OverflowError /\ ~ float_range (lease_time self)))
        /\ no_active_lease self (clock t) mac
        /\ (allocate self mac requested_ip t).1.2 = self)
  /\ (no_active_lease self (clock t) mac ->
      ~ float_range (lease_time self) ->
      forall ip, (allocate self mac requested_ip t).1.1 <> Ok (Some ip)).
Proof.
  split; [split|split].
  - intros (Hno & [[_ Hs]|[[=] _]])%allocate_raise_inv. done.
  - intros (Hno & s & ip & -> & Hne & Hip).
    by rewrite (allocate_IPv6 self mac s ip t).
  - intros e Hraise.
    pose proof (allocate_raise_inv _ _ _ _ _ Hraise) as [Hno Hwhy].
    split; [|split; [done|]].
    + destruct Hwhy as [[-> _]|Hover]; auto.
    + pose proof (allocate_cases self mac requested_ip t) as H.
      destruct (allocate self mac requested_ip t) as [[r self'] t'].
      cbn [fst snd] in Hraise |- *. subst r.
      by destruct H as [_ [[-> _]|(ip & j & [=] & _)]].
  - intros Hno Hfloat ip Hret.
    pose proof (allocate_cases self mac requested_ip t) as H.
    destruct (allocate self mac requested_ip t) as [[r self'] t'].
    cbn [fst] in Hret. subst r.
    destruct H as [_ [[_ Hact]|(ip' & j & _ & _ & _ & _ & _ & Hfloat')]].
    + by apply (Hno ip), Hact.
    + done.
Qed.

Lemma allocate_scan_none (self : LeaseManager) (now : Z) (mac : string)
    (t : nat) (self' : LeaseManager) (t' : nat) :
  allocate_scan self now mac t = (Ok None, self', t') ->
  self' = self /\ t' = (t + length (_iter_pool self))%nat
  /\ forall i ip, _iter_pool self !! i = Some ip ->
       (_is_available self ip (t + i)).1 = false.
Proof.
  unfold allocate_scan.
  destruct (scan_pool_cases self now mac (_iter_pool self) t)
    as [[-> Hnone]|(i & ip & _ & -> & _)].
  - by intros [= <- <-].
  - intros Hbind. by apply bind_lease_not_none in Hbind.
Qed.

(** X9.  [allocate] returns [None] only when the pool is exhausted: the
    manager is left as it was and every address of the pool was found with
    an active holder at the clock reading made to check it. *)
Theorem allocate_none_exhausted (self : LeaseManager) (mac : string)
    (requested_ip : option string) (t : nat) (self' : LeaseManager) (t' : nat) :
  allocate self mac requested_ip t = (Ok None, self', t') ->
  self' = self
  /\ forall ip, pool_start self <= ip <= pool_end self ->
       exists k mac', (t < k < t')%nat /\ active self (clock k) mac' ip.
Proof.
  assert (forall t0, (t < t0)%nat ->
            allocate_scan self (clock t) mac t0 = (Ok None, self', t') ->
            self' = self
            /\ forall ip, pool_start self <= ip <= pool_end self ->
                 exists k mac', (t < k < t')%nat /\ active self (clock k) mac' ip)
    as Hscan.
  { intros t0 Ht0 (-> & -> & Hnone)%allocate_scan_none. split; [done|].
    intros ip Hip.
    apply elem_of_iter_pool, list_elem_of_lookup in Hip as [i Hi].
    pose proof (lookup_lt_Some _ _ _ Hi) as Hlt.
    apply Hnone, is_available_false in Hi as [mac' Hact].
    exists (t0 + i)%nat, mac'. split; [lia|done]. }
  assert (allocate_requested self (clock t) mac requested_ip (S t)
          = (Ok None, self', t') ->
          self' = self
          /\ forall ip, pool_start self <= ip <= pool_end self ->
               exists k mac', (t < k < t')%nat /\ active self (clock k) mac' ip)
    as Hreq.
  { destruct requested_ip as [s|]; [|apply Hscan; lia].
    destruct (ip_address s) as [[ip|ip]|] eqn:Hip.
    - rewrite (allocate_requested_IPv4 _ _ _ _ ip) by done.
      destruct (_ && _); [|apply Hscan; lia].
      destruct (_is_available self ip (S t)).1; [|apply Hscan; lia].
      intros Hbind. by apply bind_lease_not_none in Hbind.
    - unfold allocate_requested.
      destruct s as [|c s]; [apply Hscan; lia|]. by rewrite Hip.
    - unfold allocate_requested.
      destruct s as [|c s]; [apply Hscan; lia|]. rewrite Hip. apply Hscan; lia. }
  unfold allocate.
  destruct (leases self !! mac) as [[ip expiry]|]; [|exact Hreq].
  destruct (bool_decide (expiry > clock t)); [done|exact Hreq].
Qed.

Lemma allocate_scan_reads (self : LeaseManager) (now : Z) (mac : string)
    (t : nat) :
  (t <= (allocate_scan self now mac t).2
   <= t + Z.to_nat (pool_end self - pool_start self + 1))%nat.
Proof.
  unfold allocate_scan.
  assert (length (_iter_pool self)
          = Z.to_nat (pool_end self - pool_start self + 1)) as Hlen
    by apply length_seqZ.
  destruct (scan_pool_cases self now mac (_iter_pool self) t)
    as [[-> _]|(i & ip & Hi%lookup_lt_Some & -> & _)].
  - cbn [snd]. lia.
  - rewrite bind_lease_reads. lia.
Qed.

(** X10.  A call of [allocate] reads the clock at least once and at most
    two times more than the pool has addresses: once on entry, once for a
    requested address and once for each address it scans. *)
Theorem allocate_readings_bound (self : LeaseManager) (mac : string)
    (requested_ip : option string) (t : nat) :
  (t < (allocate self mac requested_ip t).2
   <= t + 2 + Z.to_nat (pool_end self - pool_start self + 1))%nat.
Proof.
  pose proof (allocate_scan_reads self (clock t) mac (S t)) as Hscan.
  pose proof (allocate_scan_reads self (clock t) mac (S (S t))) as Hscan'.
  assert (S t <= (allocate_requested self (clock t) mac requested_ip (S t)).2
          <= t + 2 + Z.to_nat (pool_end self - pool_start self + 1))%nat
    as Hreq.
  { destruct requested_ip as [s|]; [|cbn [allocate_requested]; lia].
    destruct (ip_address s) as [[ip|ip]|] eqn:Hip.
    - rewrite (allocate_requested_IPv4 _ _ _ _ ip) by done.
      destruct (_ && _); [|lia].
      destruct (_is_available self ip (S t)).1;
        [rewrite bind_lease_reads|]; lia.
    - unfold allocate_requested.
      destruct s as [|c s]; [lia|]. rewrite Hip. cbn [snd]. lia.
    - unfold allocate_requested.
      destruct s as [|c s]; [lia|]. rewrite Hip. lia. }
  unfold allocate.
  destruct (leases self !! mac) as [[ip expiry]|]; [|lia].
  destruct (bool_decide (expiry > clock t)); [cbn [snd]|]; lia.
Qed.


(** X12.  With an empty pool, [pool_end] below [pool_start], a caller
    without an active lease is never given an address and the manager is
    left as it was, whatever it requests. *)
Theorem allocate_empty_pool (self : LeaseManager) (mac : string)
    (requested_ip : option string) (t : nat) :
  pool_end self < pool_start self ->
  no_active_lease self (clock t) mac ->
  (allocate self mac requested_ip t).1.2 = self
  /\ forall ip, (allocate self mac requested_ip t).1.1 <> Ok (Some ip).
Proof.
  intros Hempty Hno.
  pose proof (allocate_cases self mac requested_ip t) as H.
  destruct (allocate self mac requested_ip t) as [[r self'] t'].
  cbn [fst snd].
  destruct H as [_ [[-> Hact]|(ip & j & _ & _ & Hpool & _)]]; [|lia].
  split; [done|]. intros ip ->. by apply (Hno ip), Hact.
Qed.

(** X13.  With a positive lease duration, an address [allocate] returns
    is backed by a lease: afterwards the caller has an entry with that
    address whose expiry is after the reading the call made on entry. *)
Theorem allocate_returns_active (self : LeaseManager) (mac : string)
    (requested_ip : option string) (t : nat) (ip : Z)
    (self' : LeaseManager) (t' : nat) :
  0 < lease_time self ->
  allocate self mac requested_ip t = (Ok (Some ip), self', t') ->
  active self' (clock t) mac ip.
Proof.
  intros Hpos Halloc.
  pose proof (allocate_cases self mac requested_ip t) as H.
  rewrite Halloc in H.
  destruct H as [_ [[-> Hact]|(ip' & j & [= <-] & -> & _)]].
  - by apply Hact.
  - exists (clock t + lease_time self). split; [|lia].
    cbn [set_lease leases]. apply lookup_insert_eq.
Qed.

(** ** The message dispatcher *)

(** [handle_datagram] by cases on the datagram. *)
Lemma handle_datagram_cases (cfg : config) (lease_manager : LeaseManager)
    (data : bytes) (t : nat) :
  handle_datagram cfg lease_manager data t =
  if decide (length data < 240)%nat then (Ok None, lease_manager, t)
  else if decide (slice 236 240 data <> MAGIC_COOKIE) then
    (Ok None, lease_manager, t)
  else
    let options := parse_options (drop 240 data) in
    let msg_type := default [x00] (options !! 53) in
    if decide (msg_type = [x01]) then send_reply cfg lease_manager data x02 None t
    else if decide (msg_type = [x03]) then
      match options !! 50 with
      | None | Some [] => send_reply cfg lease_manager data x05 None t
      | Some requested =>
          match inet_ntoa requested with
          | Raise e => (Raise e, lease_manager, t)
          | Ok requested_ip =>
              send_reply cfg lease_manager data x05 (Some requested_ip) t
          end
      end
    else (Ok None, lease_manager, t).
Proof.
  unfold handle_datagram. do 2 (case_decide; [done|]). cbv zeta.
  destruct (default [x00] (parse_options (drop 240 data) !! 53)) as [|m ms];
    [by repeat case_decide|].
  reflexivity.
Qed.

(** X14.  A datagram that is shorter than 240 bytes, or has no magic
    cookie at offset 236, or whose message type is neither DISCOVER nor
    REQUEST (an absent or empty option 53, DECLINE, RELEASE or anything
    else) gets no reply and leaves the lease manager and the clock
    untouched: no lease is released by DECLINE or RELEASE. *)
Theorem handle_datagram_ignored (cfg : config) (lease_manager : LeaseManager)
    (data : bytes) (t : nat) :
  (length data < 240)%nat
  \/ slice 236 240 data <> MAGIC_COOKIE
  \/ (parse_options (drop 240 data) !! 53 <> Some [x01]
      /\ parse_options (drop 240 data) !! 53 <> Some [x03]) ->
  handle_datagram cfg lease_manager data t = (Ok None, lease_manager, t).
Proof.
  intros Hwhy. rewrite handle_datagram_cases.
  case_decide; [done|]. case_decide; [done|].
  destruct Hwhy as [?|[?|[Hdisc Hreq]]]; [lia|done|]. cbv zeta.
  destruct (parse_options (drop 240 data) !! 53) as [m|]; cbn [default].
  - case_decide as Hm; [unfold id in Hm; congruence|].
    case_decide as Hm'; [unfold id in Hm'; congruence|]. done.
  - by repeat case_decide.
Qed.

Lemma send_reply_state (cfg : config) (lease_manager : LeaseManager)
    (data : bytes) (msg : byte) (requested_ip : option string) (t : nat) :
  (send_reply cfg lease_manager data msg requested_ip t).1.2
  = (allocate lease_manager (datagram_mac data) requested_ip t).1.2
  /\ (send_reply cfg lease_manager data msg requested_ip t).2
     = (allocate lease_manager (datagram_mac data) requested_ip t).2.
Proof.
  unfold send_reply.
  destruct (allocate lease_manager (datagram_mac data) requested_ip t)
    as [[[[ip|]|e] lease_manager'] t']; done.
Qed.

(** The manager after an iteration is the one before it or the one a
    call of [allocate] for the hardware address of the datagram leaves. *)
Lemma handle_datagram_state (cfg : config) (lease_manager : LeaseManager)
    (data : bytes) (t : nat) :
  (handle_datagram cfg lease_manager data t).1.2 = lease_manager
  \/ exists requested_ip,
       (handle_datagram cfg lease_manager data t).1.2
       = (allocate lease_manager (datagram_mac data) requested_ip t).1.2.
Proof.
  rewrite handle_datagram_cases. cbv zeta.
  repeat case_decide; try (by left).
  - right. exists None. apply send_reply_state.
  - destruct (parse_options (drop 240 data) !! 50) as [[|b requested]|].
    + right. exists None. apply send_reply_state.
    + destruct (inet_ntoa (b :: requested)) as [s|e]; [|by left].
      right. exists (Some s). apply send_reply_state.
    + right. exists None. apply send_reply_state.
Qed.

(** X15.  An iteration of the loop changes at most the lease entry of the
    hardware address of the datagram it handles: the lease table without
    that entry, the pool bounds and the lease duration are the same before
    and after, whatever the datagram and also when the iteration
    raises. *)
Theorem handle_datagram_frame (cfg : config) (lease_manager : LeaseManager)
    (data : bytes) (t : nat) :
  let lease_manager' := (handle_datagram cfg lease_manager data t).1.2 in
  delete (datagram_mac data) (leases lease_manager')
  = delete (datagram_mac data) (leases lease_manager)
  /\ pool_start lease_manager' = pool_start lease_manager
  /\ pool_end lease_manager' = pool_end lease_manager
  /\ lease_time lease_manager' = lease_time lease_manager.
Proof.
  cbv zeta.
  destruct (handle_datagram_state cfg lease_manager data t)
    as [->|[requested_ip ->]]; [done|].
  split; [|apply allocate_fields].
  apply map_eq. intros mac.
  destruct (decide (mac = datagram_mac data)) as [->|Hne].
  - by rewrite !lookup_delete_eq.
  - rewrite !lookup_delete_ne by done. by apply allocate_other_entry.
Qed.

Lemma rbind_ok_inv {A B} (r : result A) (f : A -> result B) (b : B) :
  rbind r f = Ok b -> exists a, r = Ok a /\ f a = Ok b.
Proof. destruct r as [a|e]; [|done]. intros Hf. by exists a. Qed.

Lemma rbind_raise_inv {A B} (r : result A) (f : A -> result B) (e : exn) :
  rbind r f = Raise e -> r = Raise e \/ exists a, r = Ok a /\ f a = Raise e.
Proof.
  destruct r as [a|e']; simpl; [|intros [= ->]; by left].
  intros Hf. right. by exists a.
Qed.

Lemma parse_encode_terminator (options : list (Z * option bytes))
    (rest : bytes) :
  encodable options ->
  parse_options (encode options ++ xff :: rest) = option_entries options.
Proof.
  intros Henc. rewrite parse_options_from.
  rewrite (parse_from_encode options Henc [] (xff :: rest) ∅).
  apply (parse_from_terminator (encode options) rest).
Qed.

(** The option block of a reply, when it is built. *)
Lemma reply_options_ok_inv (cfg : config) (lease_time : Z) (msg : byte)
    (raw : bytes) :
  reply_options cfg lease_time msg = Ok raw ->
  exists server_id lease,
    inet_aton (server_ip cfg) = Ok server_id
    /\ pack_I lease_time = Ok lease
    /\ raw = encode (reply_entries cfg server_id lease msg) ++ [xff]
    /\ encodable (reply_entries cfg server_id lease msg).
Proof.
  unfold reply_options.
  intros (server_id & Hid & (lease & Hlease & Hbuild)%rbind_ok_inv)%rbind_ok_inv.
  apply build_options_ok_inv in Hbuild as [Hfits ->].
  exists server_id, lease. repeat split; try done.
  unfold encodable, reply_entries.
  repeat (apply Forall_cons in Hfits as [Hfit Hfits];
          apply Forall_cons; split;
          [unfold fits_BB in Hfit; simpl in Hfit |- *; lia|clear Hfit]).
  apply Forall_nil_2.
Qed.

(** The fields of a reply built on a request of at least 44 bytes. *)
Lemma build_reply_ok_fields (request : bytes) (yiaddr : Z) (server_ip : string)
    (options reply : bytes) :
  (44 <= length request)%nat ->
  build_reply request yiaddr server_ip options = Ok reply ->
  exists siaddr,
    inet_aton server_ip = Ok siaddr
    /\ slice 0 1 reply = [x02]
    /\ slice 1 12 reply = slice 1 12 request
    /\ slice 12 16 reply = slice 12 16 request
    /\ slice 16 20 reply = int_to_bytes 4 yiaddr
    /\ slice 20 24 reply = siaddr
    /\ slice 28 44 reply = slice 28 44 request
    /\ slice 236 240 reply = MAGIC_COOKIE
    /\ drop 240 reply = options.
Proof.
  intros Hlen Hreply.
  destruct (inet_aton server_ip) as [siaddr|e] eqn:Hsi.
  - rewrite (build_reply_eq request yiaddr server_ip siaddr) in Hreply by done.
    injection Hreply as <-. exists siaddr. split; [done|].
    pose proof (inet_aton_length _ _ Hsi) as Hsil.
    destruct siaddr as [|s0 [|s1 [|s2 [|s3 [|]]]]]; try discriminate.
    do 44 (destruct request as [|? request]; [simpl in Hlen; lia|]).
    repeat split; reflexivity.
  - exfalso. do 12 (destruct request as [|? request]; [simpl in Hlen; lia|]).
    unfold build_reply, slice in Hreply.
    cbn [take drop Nat.sub unpack_BBBBIHH rbind] in Hreply.
    rewrite inet_aton_IPv4Address_str, Hsi in Hreply. discriminate Hreply.
Qed.

(** X16.  Whenever an iteration sends a reply, the reply is consistent
    with the request, the lease table and the configuration: its [op]
    byte is 2, its bytes 1-12 ([htype] to [flags], with the transaction
    identifier) and its [chaddr] are those of the request, its [yiaddr]
    is the address the lease table now holds for the hardware address of
    the request, its [siaddr] is the packed server address, the magic
    cookie follows the 236 header bytes, and its options parse to exactly
    message type 2 (OFFER) for a DISCOVER or 5 (ACK) for a REQUEST,
    server identifier, lease duration, subnet mask, router and DNS. *)
Theorem handle_datagram_reply (cfg : config) (lease_manager : LeaseManager)
    (data : bytes) (t : nat) (reply : bytes) (lease_manager' : LeaseManager)
    (t' : nat) :
  handle_datagram cfg lease_manager data t = (Ok (Some reply), lease_manager', t') ->
  exists ip expiry server_id lease msg,
    leases lease_manager' !! datagram_mac data = Some (ip, expiry)
    /\ inet_aton (server_ip cfg) = Ok server_id
    /\ int_from_bytes 0 lease = lease_time lease_manager
    /\ ((parse_options (drop 240 data) !! 53 = Some [x01] /\ msg = x02)
        \/ (parse_options (drop 240 data) !! 53 = Some [x03] /\ msg = x05))
    /\ slice 0 1 reply = [x02]
    /\ slice 1 12 reply = slice 1 12 data
    /\ slice 16 20 reply = int_to_bytes 4 ip
    /\ slice 20 24 reply = server_id
    /\ slice 28 44 reply = slice 28 44 data
    /\ slice 236 240 reply = MAGIC_COOKIE
    /\ parse_options (drop 240 reply)
       = option_entries (reply_entries cfg server_id lease msg).
Proof.
  assert (forall msg requested_ip,
            (240 <= length data)%nat ->
            send_reply cfg lease_manager data msg requested_ip t
            = (Ok (Some reply), lease_manager', t') ->
            exists ip expiry server_id lease,
              leases lease_manager' !! datagram_mac data = Some (ip, expiry)
              /\ inet_aton (server_ip cfg) = Ok server_id
              /\ int_from_bytes 0 lease = lease_time lease_manager
              /\ slice 0 1 reply = [x02]
              /\ slice 1 12 reply = slice 1 12 data
              /\ slice 16 20 reply = int_to_bytes 4 ip
              /\ slice 20 24 reply = server_id
              /\ slice 28 44 reply = slice 28 44 data
              /\ slice 236 240 reply = MAGIC_COOKIE
              /\ parse_options (drop 240 reply)
                 = option_entries (reply_entries cfg server_id lease msg))
    as Hsend.
  { intros msg requested_ip Hlen. unfold send_reply.
    pose proof (allocate_returns_stored lease_manager (datagram_mac data)
                  requested_ip t) as Hstored.
    pose proof (allocate_fields lease_manager (datagram_mac data)
                  requested_ip t) as (_ & _ & Hlt).
    destruct (allocate lease_manager (datagram_mac data) requested_ip t)
      as [[[[ip|]|e] lm1] t1]; [|done..].
    cbn [fst snd] in Hstored, Hlt.
    destruct (Hstored ip eq_refl) as [expiry Hentry].
    intros [= Hbuild <- <-].
    apply rbind_ok_inv in Hbuild as (raw & Hraw & Hbuild).
    apply rbind_ok_inv in Hbuild as (reply' & Hreply & [= <-]).
    apply reply_options_ok_inv in Hraw
      as (server_id & lease & Hid & Hlease & -> & Henc).
    apply build_reply_ok_fields in Hreply
      as (siaddr & Hsi & Hop & Hhead & _ & Hyi & Hsid & Hch & Hcookie & Hopts);
      [|lia].
    rewrite Hid in Hsi. injection Hsi as <-.
    exists ip, expiry, server_id, lease. repeat split; try done.
    - rewrite Hlt in Hlease. unfold pack_I in Hlease.
      case_decide as Hrange; [|done].
      injection Hlease as <-. by apply int_from_to_bytes_4.
    - rewrite Hopts. by apply parse_encode_terminator. }
  rewrite handle_datagram_cases.
  case_decide as Hlen; [done|]. case_decide as Hcookie; [done|]. cbv zeta.
  assert (forall m, default [x00] (parse_options (drop 240 data) !! 53) = [m] ->
            m <> x00 ->
            parse_options (drop 240 data) !! 53 = Some [m]) as Htype.
  { intros m. destruct (parse_options (drop 240 data) !! 53); cbn; congruence. }
  case_decide as Hdisc.
  - intros (ip & expiry & server_id & lease & H)%Hsend; [|lia].
    exists ip, expiry, server_id, lease, x02.
    pose proof (Htype x01 Hdisc ltac:(discriminate)). intuition auto.
  - case_decide as Hreq; [|done].
    assert (forall requested_ip,
              send_reply cfg lease_manager data x05 requested_ip t
              = (Ok (Some reply), lease_manager', t') ->
              exists ip expiry server_id lease msg,
                leases lease_manager' !! datagram_mac data = Some (ip, expiry)
                /\ inet_aton (server_ip cfg) = Ok server_id
                /\ int_from_bytes 0 lease = lease_time lease_manager
                /\ ((parse_options (drop 240 data) !! 53 = Some [x01]
                     /\ msg = x02)
                    \/ (parse_options (drop 240 data) !! 53 = Some [x03]
                        /\ msg = x05))
                /\ slice 0 1 reply = [x02]
                /\ slice 1 12 reply = slice 1 12 data
                /\ slice 16 20 reply = int_to_bytes 4 ip
                /\ slice 20 24 reply = server_id
                /\ slice 28 44 reply = slice 28 44 data
                /\ slice 236 240 reply = MAGIC_COOKIE
                /\ parse_options (drop 240 reply)
                   = option_entries (reply_entries cfg server_id lease msg))
      as Hack.
    { intros requested_ip
        (ip & expiry & server_id & lease & H)%Hsend; [|lia].
      exists ip, expiry, server_id, lease, x05.
      pose proof (Htype x03 Hreq ltac:(discriminate)). intuition auto. }
    destruct (parse_options (drop 240 data) !! 50) as [[|b requested]|];
      [apply Hack| |apply Hack].
    destruct (inet_ntoa (b :: requested)) as [s|e]; [apply Hack|done].
Qed.

Lemma pack_B_raise (z : Z) (e : exn) : pack_B z = Raise e -> e = struct_error.
Proof. unfold pack_B. case_decide; [done|]. by intros [= <-]. Qed.

Lemma pack_H_raise (z : Z) (e : exn) : pack_H z = Raise e -> e = struct_error.
Proof. unfold pack_H. case_decide; [done|]. by intros [= <-]. Qed.

Lemma pack_I_raise (z : Z) (e : exn) : pack_I z = Raise e -> e = struct_error.
Proof. unfold pack_I. case_decide; [done|]. by intros [= <-]. Qed.

Lemma inet_aton_raise (s : string) (e : exn) :
  inet_aton s = Raise e -> e = OSError.
Proof.
  unfold inet_aton. destruct (_ip_int_from_string s); [done|]. by intros [= <-].
Qed.

Lemma inet_ntoa_raise (packed : bytes) (e : exn) :
  inet_ntoa packed = Raise e -> e = OSError /\ length packed <> 4%nat.
Proof. unfold inet_ntoa. case_decide; [done|]. by intros [= <-]. Qed.

Lemma unpack_BBBBIHH_cases (bs : bytes) :
  if decide (length bs = 12%nat)
  then exists header, unpack_BBBBIHH bs = Ok header
  else unpack_BBBBIHH bs = Raise struct_error.
Proof.
  do 13 (destruct bs as [|? bs]; [by case_decide; eauto|]).
  case_decide as Hlen; [simpl in Hlen; lia|done].
Qed.

Lemma reply_options_raise (cfg : config) (lease_time : Z) (msg : byte)
    (e : exn) :
  reply_options cfg lease_time msg = Raise e -> e = OSError \/ e = struct_error.
Proof.
  unfold reply_options.
  intros [Hid|(server_id & _ & [Hlease|(lease & _ & Hbuild)]%rbind_raise_inv)]
    %rbind_raise_inv.
  - left. by apply inet_aton_raise in Hid.
  - right. by apply pack_I_raise in Hlease.
  - right. by apply build_options_raise_inv in Hbuild.
Qed.

Lemma build_reply_raise (request : bytes) (yiaddr : Z) (server_ip : string)
    (options : bytes) (e : exn) :
  build_reply request yiaddr server_ip options = Raise e ->
  e = OSError \/ e = struct_error.
Proof.
  unfold build_reply.
  intros [Hunpack|(header & _ & Hrest)]%rbind_raise_inv.
  - right. pose proof (unpack_BBBBIHH_cases (slice 0 12 request)) as Hcases.
    case_decide; [destruct Hcases as [header Hcases]|]; congruence.
  - destruct header as [[[[[[op htype] hlen] hops] xid] secs] flags].
    repeat match type of Hrest with
           | rbind _ _ = Raise _ =>
               apply rbind_raise_inv in Hrest as [Hrest|(? & _ & Hrest)]
           end;
      first [ left; by apply inet_aton_raise in Hrest
            | right; by apply pack_B_raise in Hrest
            | right; by apply pack_I_raise in Hrest
            | right; by apply pack_H_raise in Hrest
            | done ].
Qed.


(** A requested IPv4 address of the pool that nobody holds at the reading
    of the availability check is bound. *)
Lemma allocate_requested_free (self : LeaseManager) (mac : string)
    (requested_ip : string) (ip : Z) (t : nat) :
  no_active_lease self (clock t) mac ->
  ip_address requested_ip = Some (IPv4Address ip) ->
  pool_start self <= ip <= pool_end self ->
  (forall mac', ~ active self (clock (S t)) mac' ip) ->
  float_range (lease_time self) ->
  allocate self mac (Some requested_ip) t
  = (Ok (Some ip), set_lease self mac ip (clock t + lease_time self), S (S t)).
Proof.
  intros Hno Hparse Hpool Hfree Hfloat.
  rewrite allocate_inactive by done.
  rewrite (allocate_requested_IPv4 _ _ _ _ ip) by done.
  rewrite !bool_decide_eq_true_2 by lia. cbn [andb].
  assert ((_is_available self ip (S t)).1 = true) as ->;
    [|by apply bind_lease_ok].
  by apply is_available_true.
Qed.

Lemma reply_options_ok (cfg : config) (lease_time : Z) (msg : byte)
    (server_id : bytes) :
  inet_aton (server_ip cfg) = Ok server_id ->
  0 <= lease_time < 2 ^ 32 ->
  (length (subnet_mask cfg) <= 255)%nat ->
  (length (router cfg) <= 255)%nat ->
  (length (dns cfg) <= 255)%nat ->
  encodable (reply_entries cfg server_id (int_to_bytes 4 lease_time) msg)
  /\ reply_options cfg lease_time msg
     = Ok (encode (reply_entries cfg server_id (int_to_bytes 4 lease_time) msg)
           ++ [xff]).
Proof.
  intros Hid Hlease Hmask Hrouter Hdns.
  pose proof (inet_aton_length _ _ Hid) as Hidl.
  assert (encodable (reply_entries cfg server_id (int_to_bytes 4 lease_time) msg))
    as Henc.
  { unfold encodable, reply_entries.
    repeat (apply Forall_cons; split; [simpl; lia|]). apply Forall_nil_2. }
  split; [done|]. unfold reply_options. rewrite Hid. cbn [rbind].
  unfold pack_I. case_decide; [|lia]. cbn [rbind].
  by apply build_options_encode.
Qed.


(** ** The packet builder on short requests *)

(** X19.  On a request of fewer than 12 bytes [build_reply] raises
    [struct.error], whatever the other arguments: the header cannot be
    unpacked. *)
Theorem build_reply_short_request (request : bytes) (yiaddr : Z)
    (server_ip : string) (options : bytes) :
  (length request < 12)%nat ->
  build_reply request yiaddr server_ip options = Raise struct_error.
Proof.
  intros Hlen. unfold build_reply.
  pose proof (unpack_BBBBIHH_cases (slice 0 12 request)) as Hcases.
  case_decide as Hslice.
  - unfold slice in Hslice. rewrite length_take, length_drop in Hslice. lia.
  - by rewrite Hcases.
Qed.

(** X20.  On a request of 12 bytes or more, with a server address that
    can be packed, [build_reply] returns a reply of 240 bytes plus the
    options even when the request is too short to hold [ciaddr] or
    [chaddr]: the bytes of those fields that the request lacks are zero in
    the reply, and the magic cookie and the options follow the 236 header
    bytes. *)
Theorem build_reply_pads_short_request (request : bytes) (yiaddr : Z)
    (server_ip : string) (siaddr options : bytes) :
  (12 <= length request)%nat ->
  inet_aton server_ip = Ok siaddr ->
  exists reply,
    build_reply request yiaddr server_ip options = Ok reply
    /\ length reply = (240 + length options)%nat
    /\ slice 12 16 reply = pack_s 4 (slice 12 16 request)
    /\ slice 28 44 reply = pack_s 16 (slice 28 44 request)
    /\ slice 236 240 reply = MAGIC_COOKIE
    /\ drop 240 reply = options.
Proof.
  intros Hlen Hsi. pose proof (inet_aton_length _ _ Hsi) as Hsil.
  destruct siaddr as [|s0 [|s1 [|s2 [|s3 [|]]]]]; try discriminate.
  do 12 (destruct request as [|? request]; [simpl in Hlen; lia|]).
  clear Hlen. unfold build_reply, slice.
  cbn [take drop Nat.sub Nat.add]. rewrite take_0.
  cbn [unpack_BBBBIHH rbind].
  rewrite inet_aton_IPv4Address_str, Hsi. cbn [rbind].
  rewrite !pack_B_byte, pack_I_from_bytes, !pack_H_from_bytes.
  cbn [rbind]. eexists. split; [reflexivity|].
  do 32 (destruct request as [|? request];
         [by repeat split; cbn; rewrite ?length_app; cbn|]).
  repeat split; cbn; rewrite ?length_app; cbn; done.
Qed.

(** ** The loop of [main] *)

(** An iteration leaves the manager and the clock as they were, or as one
    call of [allocate] leaves them. *)
Lemma handle_datagram_step (cfg : config) (lease_manager : LeaseManager)
    (data : bytes) (t : nat) :
  ((handle_datagram cfg lease_manager data t).1.2 = lease_manager
   /\ (handle_datagram cfg lease_manager data t).2 = t)
  \/ exists mac requested_ip,
       (handle_datagram cfg lease_manager data t).1.2
       = (allocate lease_manager mac requested_ip t).1.2
       /\ (handle_datagram cfg lease_manager data t).2
          = (allocate lease_manager mac requested_ip t).2.
Proof.
  rewrite handle_datagram_cases. cbv zeta.
  repeat case_decide; try (by left).
  - right. exists (datagram_mac data), None. apply send_reply_state.
  - destruct (parse_options (drop 240 data) !! 50) as [[|b requested]|].
    + right. exists (datagram_mac data), None. apply send_reply_state.
    + destruct (inet_ntoa (b :: requested)) as [s|e]; [|by left].
      right. exists (datagram_mac data), (Some s). apply send_reply_state.
    + right. exists (datagram_mac data), None. apply send_reply_state.
Qed.

Lemma loop_reachable_reachable (cfg : config)
    (pool_start0 pool_end0 lease_time0 : Z) (lease_manager : LeaseManager)
    (t : nat) :
  loop_reachable cfg pool_start0 pool_end0 lease_time0 lease_manager t ->
  reachable pool_start0 pool_end0 lease_time0 lease_manager t.
Proof.
  induction 1 as [|lease_manager t data _ IH]; [constructor|].
  destruct (handle_datagram_step cfg lease_manager data t)
    as [[-> ->]|(mac & requested_ip & -> & ->)]; [done|].
  by constructor.
Qed.

(** X21.  Whatever datagrams arrive, in every state the loop of [main]
    reaches from a fresh lease manager, no address has two active holders
    at any current time, and every address stored in the lease table lies
    within the pool bounds. *)
Theorem main_loop_safe (cfg : config) (pool_start0 pool_end0 lease_time0 : Z)
    (lease_manager : LeaseManager) (t : nat) :
  loop_reachable cfg pool_start0 pool_end0 lease_time0 lease_manager t ->
  (forall now, current_time t now -> one_holder lease_manager now)
  /\ (forall mac ip expiry,
        leases lease_manager !! mac = Some (ip, expiry) ->
        pool_start0 <= ip <= pool_end0).
Proof.
  intros Hreach%loop_reachable_reachable.
  induction Hreach as [|self t mac requested_ip Hreach [IHone IHpool]].
  - split; [|done]. intros now _ mac1 mac2 ip (expiry & Hmac & _). done.
  - split; [by apply allocate_preserves_one_holder|].
    destruct (reachable_fields _ _ _ _ _ Hreach) as (Hs & He & _).
    rewrite <- Hs, <- He in IHpool |- *.
    by apply allocate_preserves_in_pool.
Qed.
End Program.

(** * The theorems at sample inputs *)

(** The lease pool of the end-to-end example of the specification: pool
    10.0.0.10 - 10.0.0.12, leases of 60 ticks, a clock that starts at 1000
    and advances by one tick at each reading. *)

(** [reachable_one_holder] after two allocations, at time 1005, when the
    two hardware addresses both hold an active lease: the first on
    10.0.0.10 until 1060, the second on 10.0.0.11 until 1062. *)
Lemma reachable_one_holder_witness :
  let self1 :=
    (allocate sample_clock no_ipv6 sample_manager "aa:bb:cc:dd:ee:ff" None 0).1.2 in
  let self2 :=
    (allocate sample_clock no_ipv6 self1 "11:22:33:44:55:66" None 2).1.2 in
  active self2 1005 "aa:bb:cc:dd:ee:ff" 167772170
  /\ active self2 1005 "11:22:33:44:55:66" 167772171
  /\ one_holder self2 1005.
Proof.
  intros self1 self2. split; [|split].
  - exists 1060. split; [by vm_compute|lia].
  - exists 1062. split; [by vm_compute|lia].
  - apply (reachable_one_holder sample_clock no_ipv6 167772170 167772172 60 _
             (allocate sample_clock no_ipv6 self1 "11:22:33:44:55:66" None 2).2).
    + apply (reachable_allocate sample_clock no_ipv6 167772170 167772172 60
               self1 2 "11:22:33:44:55:66" None).
      apply (reachable_allocate sample_clock no_ipv6 167772170 167772172 60
               sample_manager 0 "aa:bb:cc:dd:ee:ff" None).
      apply reachable_init.
    + intros k Hk. vm_compute in Hk. unfold sample_clock. lia.
Defined.

(** [allocate_active_lease] for a hardware address whose lease expires
    at 1060, called at 1000 and again at 1001. *)
Lemma allocate_active_lease_witness :
  let self := set_lease sample_manager "aa:bb:cc:dd:ee:ff" 167772170 1060 in
  allocate sample_clock no_ipv6 self "aa:bb:cc:dd:ee:ff" (Some "10.0.0.12") 0
  = (Ok (Some 167772170), self, 1%nat)
  /\ (let '(first, self1, t1) :=
        allocate sample_clock no_ipv6 self "aa:bb:cc:dd:ee:ff" None 0 in
      let '(second, self2, t2) :=
        allocate sample_clock no_ipv6 self1 "aa:bb:cc:dd:ee:ff" None t1 in
      first = Ok (Some 167772170) /\ second = Ok (Some 167772170)
      /\ self2 = self).
Proof.
  intros self.
  destruct (allocate_active_lease sample_clock no_ipv6 self "aa:bb:cc:dd:ee:ff"
              167772170 1060 (Some "10.0.0.12") 0) as [Hfirst Htwice].
  - reflexivity.
  - unfold sample_clock. lia.
  - split; [exact Hfirst|]. apply Htwice. unfold sample_clock. lia.
Defined.



(** [parse_build_roundtrip] on the option list of an OFFER. *)
Lemma parse_build_roundtrip_witness :
  exists raw,
    build_options
      [(53, Some [x02]); (54, Some [x0a; x00; x00; x01]);
       (51, Some [x00; x00; x00; x3c]); (1, None)] = Ok raw
    /\ parse_options raw
       = option_entries
           [(53, Some [x02]); (54, Some [x0a; x00; x00; x01]);
            (51, Some [x00; x00; x00; x3c]); (1, None)].
Proof.
  apply parse_build_roundtrip.
  repeat (apply Forall_cons; split; [simpl; try lia; done|]).
  apply Forall_nil_2.
Defined.

(** C5 as stated fails on an entry of code 0, which is not the
    terminator: the parser skips the code as padding and reads the length
    byte as the code of an option.  The list with the single entry 0 -> 05
    is built as 00 01 05 ff and parsed as the mapping 1 -> ff. *)
Lemma roundtrip_fails_on_code_0 :
  let options := [(0, Some [x05])] in
  Forall (fun '(code, _) => code <> 255) options
  /\ build_options options = Ok [x00; x01; x05; xff]
  /\ parse_options [x00; x01; x05; xff] = {[1 := [xff]]}
  /\ parse_options [x00; x01; x05; xff] <> option_entries options.
Proof.
  repeat split.
  - apply Forall_cons. split; [done|apply Forall_nil_2].
  - intros Heq. apply (f_equal (fun m => m !! 0)) in Heq.
    vm_compute in Heq. discriminate Heq.
Defined.

(** [build_reply_layout] on the sample datagram, for the address
    10.0.0.10 and the server 10.0.0.1: the reply keeps the transaction
    identifier 12345678 and has the [op] byte 2. *)
Lemma build_reply_layout_witness :
  exists reply,
    build_reply (sample_datagram [x35; x01; x01; xff]) 167772170 "10.0.0.1"
      [x35; x01; x02; xff] = Ok reply
    /\ slice 0 1 reply = [x02]
    /\ slice 4 8 reply = [x12; x34; x56; x78].
Proof.
  destruct (build_reply_layout (sample_datagram [x35; x01; x01; xff])
              167772170 "10.0.0.1" [x0a; x00; x00; x01] [x35; x01; x02; xff])
    as (reply & Hreply & Hop & Hhead & _).
  - vm_compute. lia.
  - lia.
  - reflexivity.
  - exists reply. split; [exact Hreply|]. split; [exact Hop|].
    vm_compute in Hreply. injection Hreply as <-. reflexivity.
Defined.

(** [reachable_in_pool] after a first allocation. *)
Lemma reachable_in_pool_witness :
  let self :=
    (allocate sample_clock no_ipv6 sample_manager "aa:bb:cc:dd:ee:ff" None 0).1.2 in
  (forall mac ip expiry,
     leases self !! mac = Some (ip, expiry) -> 167772170 <= ip <= 167772172)
  /\ (forall mac requested_ip ip,
        (allocate sample_clock no_ipv6 self mac requested_ip 2).1.1
        = Ok (Some ip) ->
        167772170 <= ip <= 167772172).
Proof.
  apply (reachable_in_pool sample_clock no_ipv6 167772170 167772172 60 _ 2).
  apply (reachable_allocate sample_clock no_ipv6 167772170 167772172 60
           sample_manager 0 "aa:bb:cc:dd:ee:ff" None).
  apply reachable_init.
Defined.

(** * The further properties at sample inputs *)

Lemma parse_options_entry_bounds_witness :
  1 <= 53 <= 254 /\ (length [x03] <= 255)%nat.
Proof.
  apply (parse_options_entry_bounds [x35; x01; x03; xff] 53 [x03]).
  by vm_compute.
Defined.

Lemma parse_options_padding_terminator_witness :
  parse_options
    (encode [(53, Some [x01])] ++ replicate 3 x00
     ++ encode [(50, Some [x0a; x00; x00; x0b])] ++ xff :: [x01; x02])
  = option_entries ([(53, Some [x01])] ++ [(50, Some [x0a; x00; x00; x0b])]).
Proof.
  apply parse_options_padding_terminator.
  - apply Forall_cons. split; [simpl; lia|apply Forall_nil_2].
  - apply Forall_cons. split; [simpl; lia|apply Forall_nil_2].
Defined.

Lemma parse_options_truncated_witness :
  parse_options (encode [(53, Some [x03])] ++ [x32])
  = option_entries [(53, Some [x03])]
  /\ parse_options (encode [(53, Some [x03])] ++ x32 :: x04 :: [x0a; x00; x00])
     = <[byte_to_Z x32 := [x0a; x00; x00]]> (option_entries [(53, Some [x03])]).
Proof.
  apply parse_options_truncated.
  - apply Forall_cons. split; [simpl; lia|apply Forall_nil_2].
  - discriminate.
  - discriminate.
  - vm_compute. lia.
Defined.

Lemma mac_to_str_inj_witness : [xaa; xbb; xcc] = [xaa; xbb; xcc].
Proof. apply mac_to_str_inj. reflexivity. Defined.

Lemma allocate_ignores_bad_request_witness :
  allocate sample_clock no_ipv6 sample_manager "aa:bb:cc:dd:ee:ff"
    (Some "10.0.0.300") 0
  = allocate sample_clock no_ipv6 sample_manager "aa:bb:cc:dd:ee:ff" None 0.
Proof.
  apply allocate_ignores_bad_request. left. reflexivity.
Defined.

(** A request that reads as an IPv6 address, and a lease duration no
    float can hold. *)
Lemma allocate_raises_iff_witness :
  (allocate sample_clock loopback_ipv6 sample_manager "aa:bb:cc:dd:ee:ff"
     (Some "::1") 0).1.1
  = Raise TypeError
  /\ ~ float_range huge_lease_time
  /\ (allocate sample_clock no_ipv6
        (LeaseManager_init 167772170 167772172 huge_lease_time)
        "aa:bb:cc:dd:ee:ff" None 0).1.2
     = LeaseManager_init 167772170 167772172 huge_lease_time
  /\ forall ip,
       (allocate sample_clock no_ipv6
          (LeaseManager_init 167772170 167772172 huge_lease_time)
          "aa:bb:cc:dd:ee:ff" (Some "10.0.0.11") 0).1.1
       <> Ok (Some ip).
Proof.
  split; [|split; [|split]].
  - apply allocate_raises_iff. split.
    + intros ip (expiry & Hmac & _). discriminate Hmac.
    + exists "::1"%string, 1. split; [done|]. split; [discriminate|reflexivity].
  - destruct (allocate_raises_iff sample_clock no_ipv6
                (LeaseManager_init 167772170 167772172 huge_lease_time)
                "aa:bb:cc:dd:ee:ff" None 0) as (_ & Hraise & _).
    destruct (Hraise OverflowError) as ([[=]|[_ Hfloat]] & _); [|exact Hfloat].
    by vm_compute.
  - destruct (allocate_raises_iff sample_clock no_ipv6
                (LeaseManager_init 167772170 167772172 huge_lease_time)
                "aa:bb:cc:dd:ee:ff" None 0) as (_ & Hraise & _).
    destruct (Hraise OverflowError) as (_ & _ & Hself); [|exact Hself].
    by vm_compute.
  - apply allocate_raises_iff.
    + intros ip (expiry & Hmac & _). discriminate Hmac.
    + intros [_ Hlt]. by vm_compute in Hlt.
Defined.

Lemma allocate_none_exhausted_witness :
  let self := set_lease (LeaseManager_init 10 10 60) "aa" 10 2000 in
  self = self
  /\ forall ip, pool_start self <= ip <= pool_end self ->
       exists k mac', (0 < k < 2)%nat /\ active self (sample_clock k) mac' ip.
Proof.
  intros self.
  apply (allocate_none_exhausted sample_clock no_ipv6 self "bb" None 0 self 2).
  by vm_compute.
Defined.


Lemma allocate_empty_pool_witness :
  let self := LeaseManager_init 20 10 60 in
  (allocate sample_clock no_ipv6 self "aa" (Some "0.0.0.15") 0).1.2 = self
  /\ forall ip,
       (allocate sample_clock no_ipv6 self "aa" (Some "0.0.0.15") 0).1.1
       <> Ok (Some ip).
Proof.
  intros self. apply allocate_empty_pool.
  - by vm_compute.
  - intros ip (expiry & Hmac & _). discriminate Hmac.
Defined.

Lemma allocate_returns_active_witness :
  active
    (set_lease sample_manager "aa" 167772170 1060) (sample_clock 0) "aa"
    167772170.
Proof.
  apply (allocate_returns_active sample_clock no_ipv6 sample_manager "aa" None 0
           167772170 _ 2).
  - by vm_compute.
  - by vm_compute.
Defined.

(** A RELEASE from the sample hardware address. *)
Lemma handle_datagram_ignored_witness :
  handle_datagram sample_clock no_ipv6 sample_config
    (set_lease sample_manager "aa:bb:cc:dd:ee:ff" 167772170 1060)
    (sample_datagram [x35; x01; x07; xff]) 0
  = (Ok None, set_lease sample_manager "aa:bb:cc:dd:ee:ff" 167772170 1060, 0%nat).
Proof.
  apply handle_datagram_ignored. right. right.
  split; intros Htype; vm_compute in Htype; discriminate Htype.
Defined.

(** A DISCOVER from the sample hardware address on the fresh pool. *)
Lemma handle_datagram_reply_witness :
  exists reply lease_manager' t',
    handle_datagram sample_clock no_ipv6 sample_config sample_manager
      (sample_datagram [x35; x01; x01; xff]) 0
    = (Ok (Some reply), lease_manager', t')
    /\ slice 0 1 reply = [x02]
    /\ slice 236 240 reply = MAGIC_COOKIE.
Proof.
  eexists _, _, _. split; [vm_compute; reflexivity|].
  edestruct (handle_datagram_reply sample_clock no_ipv6 sample_config
               sample_manager (sample_datagram [x35; x01; x01; xff]) 0)
    as (ip & expiry & server_id & lease & msg & H);
    [vm_compute; reflexivity|].
  split; [apply H|apply H].
Defined.



Lemma build_reply_short_request_witness :
  build_reply [x01; x01; x06] 167772170 "10.0.0.1" [xff] = Raise struct_error.
Proof. apply build_reply_short_request. simpl. lia. Defined.

Lemma build_reply_pads_short_request_witness :
  exists reply,
    build_reply [x01; x01; x06; x00; x12; x34; x56; x78; x00; x00; x00; x00; x0a]
      167772170 "10.0.0.1" [xff] = Ok reply
    /\ length reply = 241%nat
    /\ slice 12 16 reply = [x0a; x00; x00; x00].
Proof.
  destruct (build_reply_pads_short_request
              [x01; x01; x06; x00; x12; x34; x56; x78; x00; x00; x00; x00; x0a]
              167772170 "10.0.0.1" [x0a; x00; x00; x01] [xff])
    as (reply & Hreply & Hlen & Hci & _).
  - simpl. lia.
  - reflexivity.
  - exists reply. done.
Defined.

(** The state after one DISCOVER on the fresh pool. *)
Lemma main_loop_safe_witness :
  let lease_manager :=
    (handle_datagram sample_clock no_ipv6 sample_config sample_manager
       (sample_datagram [x35; x01; x01; xff]) 0).1.2 in
  (forall now, current_time sample_clock 2 now -> one_holder lease_manager now)
  /\ (forall mac ip expiry,
        leases lease_manager !! mac = Some (ip, expiry) ->
        167772170 <= ip <= 167772172).
Proof.
  apply (main_loop_safe sample_clock no_ipv6 sample_config
           167772170 167772172 60 _ 2).
  apply (loop_iteration sample_clock no_ipv6 sample_config
           167772170 167772172 60 sample_manager 0
           (sample_datagram [x35; x01; x01; xff])).
  apply loop_start.
Defined.
